(** * Draconic bounded containers ([draconic/types.py])

    A shallow embedding of the size estimator [approx_len_of] and of the
    bounded list, set, dict and text classes built by [safe_list],
    [safe_set], [safe_dict] and [safe_str], followed by the properties of
    the specification that were checked against them.

    Python objects have identity and are mutated in place, so the embedding
    works on an explicit object store: an address is an index into a list
    of objects, a reference is an address, and every method is a function
    in a small state-and-exception monad over the store.

    The values covered are ints, text, native lists, dicts and sets, and
    the four bounded kinds; sets and dict keys hold ints and text (the
    hashable kinds among these).  Text is a [string], its length the number
    of characters.  Recursion is bounded the way the interpreter bounds
    it: a function that calls itself, or a comparison that descends into
    containers, takes a budget [d] of nested levels still available and
    raises [RecursionError] when a further level is needed and none is
    left. *)

From Stdlib Require Import ZArith String Ascii List Lia Bool.
From stdpp Require Import base list.

Local Open Scope Z_scope.

(** ** Objects and the store *)

Abbreviation addr := nat.

(** The object kinds that flow through the sandbox.  [SafeList] is a
    [UserList] (its [data] list is kept inline), [SafeSet] and [SafeDict]
    subclass the natives, and [SafeStr] is the [UserString] subclass that
    [safe_str] names [str].  The three bounded containers carry the
    instance attribute [__approx_len__]; it is absent ([None]) only while
    [__init__] runs.  Sets and dicts are kept in iteration order. *)
Inductive obj : Type :=
| PyInt (z : Z)
| PyStr (s : string)
| PyList (items : list addr)
| PyDict (entries : list (addr * addr))
| PySet (items : list addr)
| SafeList (data : list addr) (approx_len : option Z)
| SafeSet (items : list addr) (approx_len : option Z)
| SafeDict (entries : list (addr * addr)) (approx_len : option Z)
| SafeStr (data : string).

Abbreviation heap := (list obj).

(** What a name can be bound to during [approx_len_of]: an object of the
    store, or one of the 2-tuples that [dict.items()] builds afresh at each
    step of the iteration (such a tuple is identical to no other value). *)
Inductive value : Type :=
| Ref (a : addr)
| Item (k v : addr).

(** The exceptions that can come up.  [IterableTooLong] is the size-limit
    rejection and [FeatureNotAvailable] the rejection of a disallowed
    feature; the others are the interpreter's own. *)
Inductive exn : Type :=
| IterableTooLong
| FeatureNotAvailable
| TypeError
| ValueError
| AttributeError
| RecursionError.

(** Result of a pure computation that may raise. *)
Inductive res (A : Type) : Type :=
| Val (v : A)
| Err (e : exn).
Arguments Val {A} v.
Arguments Err {A} e.

(** Result of a computation on the store: a value or an exception, and the
    store as the computation left it. *)
Inductive outcome (A : Type) : Type :=
| Ok (v : A) (h : heap)
| Raise (e : exn) (h : heap).
Arguments Ok {A} v h.
Arguments Raise {A} e h.

Definition M (A : Type) : Type := heap -> outcome A.

Definition ret {A} (x : A) : M A := fun h => Ok x h.
Definition raise {A} (e : exn) : M A := fun h => Raise e h.
Definition bind {A B} (m : M A) (k : A -> M B) : M B :=
  fun h => match m h with
           | Ok x h' => k x h'
           | Raise e h' => Raise e h'
           end.
Definition lift {A} (f : heap -> res A) : M A :=
  fun h => match f h with
           | Val x => Ok x h
           | Err e => Raise e h
           end.

Notation "'let*' x ':=' m 'in' k" := (bind m (fun x => k))
  (at level 10, x name, m at level 100, k at level 200).
Notation "'let*' ' p ':=' m 'in' k" := (bind m (fun x => match x with p => k end))
  (at level 10, p pattern, m at level 100, k at level 200).

Definition final_heap {A} (o : outcome A) : heap :=
  match o with Ok _ h => h | Raise _ h => h end.

(** Allocation of a new object: it gets the next free address. *)
Definition alloc (o : obj) : M addr := fun h => Ok (length h) (h ++ [o]).

(** ** The limit policy *)

Record config : Type := { max_const_len : Z }.

(** Modelled from the spec: [_raise_in_context] comes from the module
    [draconic.exceptions], which is not part of the sources at hand; the
    specification has every rejection raise the given condition at the
    point of violation, so the call raises the class it is given. *)
Definition raise_in_context {A} (cls : exn) : M A := raise cls.

(** ** Views of an object *)

(** [isinstance(o, (str, bytes, UserString))] and its text. *)
Definition as_text (o : obj) : option string :=
  match o with
  | PyStr s | SafeStr s => Some s
  | _ => None
  end.

(** A list or a [UserList], and the elements it holds. *)
Definition as_seq (o : obj) : option (list addr) :=
  match o with
  | PyList xs | SafeList xs _ => Some xs
  | _ => None
  end.

(** [isinstance(o, dict)] and its entries. *)
Definition as_mapping (o : obj) : option (list (addr * addr)) :=
  match o with
  | PyDict es | SafeDict es _ => Some es
  | _ => None
  end.

Definition as_set (o : obj) : option (list addr) :=
  match o with
  | PySet xs | SafeSet xs _ => Some xs
  | _ => None
  end.

(** The attribute [__approx_len__], when the object has it. *)
Definition approx_len_attr (o : obj) : option Z :=
  match o with
  | SafeList _ c | SafeSet _ c | SafeDict _ c => c
  | _ => None
  end.

Definition cached_size (h : heap) (a : addr) : option Z :=
  match h !! a with
  | Some o => approx_len_attr o
  | None => None
  end.

Definition py_len (s : string) : Z := Z.of_nat (String.length s).

(** ** Equality of objects ([==])

    [child in visited] on a list is [PyObject_RichCompareBool]: identical
    objects are equal, otherwise the objects' [__eq__] decides.  Comparing
    containers compares their elements, one interpreter recursion level
    deeper; the level budget [d] is what is left of the recursion limit,
    and running out of it is Python's [RecursionError]. *)

Definition value_is (x y : value) : bool :=
  match x, y with
  | Ref a, Ref b => Nat.eqb a b
  | _, _ => false
  end.

(** Equality of hashable keys, as a dict or set lookup sees it: ints by
    value, text by content, anything else by identity. *)
Definition key_eq (h : heap) (k k' : addr) : bool :=
  Nat.eqb k k' ||
  match h !! k, h !! k' with
  | Some (PyInt a), Some (PyInt b) => Z.eqb a b
  | Some o, Some o' =>
      match as_text o, as_text o' with
      | Some s, Some t => String.eqb s t
      | _, _ => false
      end
  | _, _ => false
  end.

Fixpoint dict_lookup (h : heap) (es : list (addr * addr)) (k : addr) : option addr :=
  match es with
  | [] => None
  | (k', v) :: es' => if key_eq h k' k then Some v else dict_lookup h es' k
  end.

Section RichCompare.
Variable cmp : value -> value -> res bool.

Fixpoint all_eq (xs ys : list value) : res bool :=
  match xs, ys with
  | x :: xs', y :: ys' =>
      match cmp x y with
      | Val true => all_eq xs' ys'
      | r => r
      end
  | _, _ => Val true
  end.

(** Sequences of different lengths are unequal before any element is
    looked at. *)
Definition seq_eq (xs ys : list value) : res bool :=
  if Nat.eqb (length xs) (length ys) then all_eq xs ys else Val false.

Fixpoint entries_eq (h : heap) (es es' : list (addr * addr)) : res bool :=
  match es with
  | [] => Val true
  | (k, v) :: rest =>
      match dict_lookup h es' k with
      | None => Val false
      | Some v' =>
          match cmp (Ref v') (Ref v) with
          | Val true => entries_eq h rest es'
          | r => r
          end
      end
  end.

Definition dict_eq (h : heap) (es es' : list (addr * addr)) : res bool :=
  if Nat.eqb (length es) (length es') then entries_eq h es es' else Val false.

Definition set_eq (h : heap) (xs ys : list addr) : bool :=
  Nat.eqb (length xs) (length ys) &&
  forallb (fun x => existsb (key_eq h x) ys) xs.

Definition obj_eq (h : heap) (o o' : obj) : res bool :=
  match o, o' with
  | PyInt a, PyInt b => Val (Z.eqb a b)
  | _, _ =>
    match as_text o, as_text o' with
    | Some s, Some t => Val (String.eqb s t)
    | _, _ =>
      match as_seq o, as_seq o' with
      | Some xs, Some ys => seq_eq (map Ref xs) (map Ref ys)
      | _, _ =>
        match as_mapping o, as_mapping o' with
        | Some es, Some es' => dict_eq h es es'
        | _, _ =>
          match as_set o, as_set o' with
          | Some xs, Some ys => Val (set_eq h xs ys)
          | _, _ => Val false
          end
        end
      end
    end
  end.

Definition rich_eq (h : heap) (x y : value) : res bool :=
  match x, y with
  | Item k v, Item k' v' => seq_eq [Ref k; Ref v] [Ref k'; Ref v']
  | Ref a, Ref b =>
      match h !! a, h !! b with
      | Some o, Some o' => obj_eq h o o'
      | _, _ => Val false
      end
  | _, _ => Val false
  end.
End RichCompare.

Fixpoint py_eq (d : nat) (h : heap) (x y : value) {struct d} : res bool :=
  if value_is x y then Val true
  else match d with
       | O => Err RecursionError
       | S d' => rich_eq (py_eq d' h) h x y
       end.

(** [x in l] for a list [l]: the first member identical or equal to [x]
    decides; an exception of a comparison propagates. *)
Fixpoint py_contains (d : nat) (h : heap) (l : list value) (x : value) : res bool :=
  match l with
  | [] => Val false
  | y :: l' =>
      match py_eq d h y x with
      | Val false => py_contains d h l' x
      | r => r
      end
  end.

(** ** The size estimator *)

(** [len(obj)] for text-like objects, the first test of [approx_len_of]. *)
Definition text_len (h : heap) (v : value) : option Z :=
  match v with
  | Ref a =>
      match h !! a with
      | Some o => option_map py_len (as_text o)
      | None => None
      end
  | Item _ _ => None
  end.

(** [hasattr(obj, "__approx_len__")] and the attribute's value. *)
Definition approx_attr (h : heap) (v : value) : option Z :=
  match v with
  | Ref a => cached_size h a
  | Item _ _ => None
  end.

(** [operator.length_hint(obj)]: the length of a container, 0 for an
    object without one. *)
Definition length_hint (h : heap) (v : value) : Z :=
  match v with
  | Item _ _ => 2
  | Ref a =>
      match h !! a with
      | Some (PyList xs) | Some (PySet xs)
      | Some (SafeList xs _) | Some (SafeSet xs _) => Z.of_nat (length xs)
      | Some (PyDict es) | Some (SafeDict es _) => Z.of_nat (length es)
      | _ => 0
      end
  end.

(** What [iter(obj)] yields, a dict being replaced by its [items()];
    [None] when the object is not iterable ([TypeError]). *)
Definition children (h : heap) (v : value) : option (list value) :=
  match v with
  | Item k v => Some [Ref k; Ref v]
  | Ref a =>
      match h !! a with
      | Some (PyList xs) | Some (PySet xs)
      | Some (SafeList xs _) | Some (SafeSet xs _) => Some (map Ref xs)
      | Some (PyDict es) | Some (SafeDict es _) =>
          Some (map (fun e => Item (fst e) (snd e)) es)
      | _ => None
      end
  end.

(** [setattr(obj, "__approx_len__", size)] with its [AttributeError]
    swallowed: only instances of the [UserList] and [set] subclasses take
    the attribute (for a dict, [obj] has been rebound to the [items()]
    view by then, which takes none). *)
Definition memoize (v : value) (size : Z) : M unit :=
  fun h =>
    match v with
    | Ref a =>
        match h !! a with
        | Some (SafeList xs _) => Ok tt (<[a := SafeList xs (Some size)]> h)
        | Some (SafeSet xs _) => Ok tt (<[a := SafeSet xs (Some size)]> h)
        | _ => Ok tt h
        end
    | Item _ _ => Ok tt h
    end.

Section Traversal.
(** The recursive call and the membership test of the loop body. *)
Variable rec : value -> list value -> M (Z * list value).
Variable contains : list value -> value -> M bool.

(** The [for child in iter(obj)] loop: [size] and the shared [visited]
    list are threaded through the iterations. *)
Fixpoint visit_children (cs : list value) (size : Z) (visited : list value)
  : M (Z * list value) :=
  match cs with
  | [] => ret (size, visited)
  | child :: rest =>
      let* skip := contains visited child in
      if (skip : bool) then visit_children rest size visited
      else
        let* '(n, visited1) := rec child visited in
        visit_children rest (size + n) (visited1 ++ [child])
  end.
End Traversal.

(** [approx_len_of(obj, visited)].  The result carries the final state of
    the [visited] list, which the caller shares.  A nested call needs one
    more recursion level than the running one. *)
Fixpoint approx_len_of (d : nat) (obj : value) (visited : option (list value))
  {struct d} : M (Z * list value) :=
  fun h =>
    match text_len h obj with
    | Some n => Ok (n, default [] visited) h
    | None =>
      match approx_attr h obj with
      | Some n => Ok (n, default [] visited) h
      | None =>
        let visited := default [obj] visited in
        let size := length_hint h obj in
        match children h obj with
        | None => (let* _ := memoize obj size in ret (size, visited)) h
        | Some cs =>
            (let* '(size', visited') :=
               visit_children
                 (fun child vis =>
                    match d with
                    | O => raise RecursionError
                    | S d' => approx_len_of d' child (Some vis)
                    end)
                 (fun vis child => lift (fun h' => py_contains d h' vis child))
                 cs size visited in
             let* _ := memoize obj size' in
             ret (size', visited')) h
        end
      end
    end.

(** The two calls of the loop body, by name. *)
Definition nested_call (d : nat) (child : value) (vis : list value)
  : M (Z * list value) :=
  match d with
  | O => raise RecursionError
  | S d' => approx_len_of d' child (Some vis)
  end.

Definition contains (d : nat) (vis : list value) (child : value) : M bool :=
  lift (fun h' => py_contains d h' vis child).

(** The estimate alone, for callers that pass no [visited] list. *)
Definition size_of (d : nat) (a : addr) : M Z :=
  let* '(n, _) := approx_len_of d (Ref a) None in ret n.

(** ** Store primitives *)

Definition load (a : addr) : M obj :=
  fun h => match h !! a with
           | Some o => Ok o h
           | None => Raise AttributeError h
           end.

Definition store (a : addr) (o : obj) : M unit :=
  fun h => Ok tt (<[a := o]> h).

Fixpoint alloc_all (os : list obj) : M (list addr) :=
  match os with
  | [] => ret []
  | o :: os' =>
      let* a := alloc o in
      let* rest := alloc_all os' in
      ret (a :: rest)
  end.

Definition chars (s : string) : list string :=
  map (fun c => String c EmptyString) (list_ascii_of_string s).

(** [list(x)]: the objects that iterating [x] yields.  A dict yields its
    keys, text yields new one-character texts of its own class, an int is
    not iterable. *)
Definition py_iter (a : addr) : M (list addr) :=
  let* o := load a in
  match o with
  | PyInt _ => raise TypeError
  | PyStr s => alloc_all (map PyStr (chars s))
  | SafeStr s => alloc_all (map SafeStr (chars s))
  | PyList xs | PySet xs | SafeList xs _ | SafeSet xs _ => ret xs
  | PyDict es | SafeDict es _ => ret (map fst es)
  end.

(** [self.__approx_len__ = n]. *)
Definition set_cached (self : addr) (n : Z) : M unit :=
  let* o := load self in
  match o with
  | SafeList xs _ => store self (SafeList xs (Some n))
  | SafeSet xs _ => store self (SafeSet xs (Some n))
  | SafeDict es _ => store self (SafeDict es (Some n))
  | _ => raise AttributeError
  end.

(** Reading [self.__approx_len__]. *)
Definition get_cached (self : addr) : M Z :=
  let* o := load self in
  match approx_len_attr o with
  | Some c => ret c
  | None => raise AttributeError
  end.

(** [self.__approx_len__ += k]. *)
Definition add_cached (self : addr) (k : Z) : M unit :=
  let* c := get_cached self in
  set_cached self (c + k).

(** Objects with a hash: ints and text.  Lists, sets, dicts and their
    bounded subclasses have none. *)
Definition hashable (o : obj) : bool :=
  match o with
  | PyInt _ | PyStr _ | SafeStr _ => true
  | _ => false
  end.

Definition check_hashable (a : addr) : M unit :=
  let* o := load a in
  if hashable o then ret tt else raise TypeError.

(** ** Native list, set and dict operations used by the subclasses *)

(** [data * n] for a list. *)
Definition list_repeat (data : list addr) (n : Z) : list addr :=
  mjoin (replicate (Z.to_nat n) data).

Definition get_data (self : addr) : M (list addr) :=
  let* o := load self in
  match o with
  | SafeList xs _ => ret xs
  | _ => raise AttributeError
  end.

Definition set_data (self : addr) (xs : list addr) : M unit :=
  let* o := load self in
  match o with
  | SafeList _ c => store self (SafeList xs c)
  | _ => raise AttributeError
  end.

(** [UserList.append]: [self.data.append(item)]. *)
Definition list_append (self item : addr) : M unit :=
  let* xs := get_data self in
  set_data self (xs ++ [item]).

(** [UserList.extend]: [self.data.extend(other)], the elements of [other]
    being collected before [self.data] grows. *)
Definition list_extend (self other : addr) : M unit :=
  let* ys := py_iter other in
  let* xs := get_data self in
  set_data self (xs ++ ys).

Definition set_items (self : addr) : M (list addr) :=
  let* o := load self in
  match as_set o with
  | Some xs => ret xs
  | None => raise AttributeError
  end.

Definition set_set_items (self : addr) (xs : list addr) : M unit :=
  let* o := load self in
  match o with
  | PySet _ => store self (PySet xs)
  | SafeSet _ c => store self (SafeSet xs c)
  | _ => raise AttributeError
  end.

(** [set.add]: an element equal to a member is not added again. *)
Definition set_add (self e : addr) : M unit :=
  let* _ := check_hashable e in
  let* xs := set_items self in
  fun h =>
    if existsb (fun x => key_eq h x e) xs then Ok tt h
    else set_set_items self (xs ++ [e]) h.

(** [set.discard]: removing an absent element is not an error.  A set
    given as the element is looked up as a frozenset, which no set of ints
    and text holds. *)
Definition set_discard (self e : addr) : M unit :=
  let* o := load e in
  match as_set o with
  | Some _ => ret tt
  | None =>
      let* _ := check_hashable e in
      let* xs := set_items self in
      fun h => set_set_items self (filter (fun x => negb (key_eq h x e)) xs) h
  end.

Fixpoint for_each {A} (f : A -> M unit) (l : list A) : M unit :=
  match l with
  | [] => ret tt
  | x :: l' => let* _ := f x in for_each f l'
  end.

(** [set.update], called with several arguments: the arguments are consumed one after the other,
    so an argument that cannot be consumed leaves the earlier ones in. *)
Definition set_update (self : addr) (others : list addr) : M unit :=
  for_each (fun other =>
              let* ys := py_iter other in
              for_each (set_add self) ys) others.

Definition dict_entries (self : addr) : M (list (addr * addr)) :=
  let* o := load self in
  match as_mapping o with
  | Some es => ret es
  | None => raise AttributeError
  end.

Definition set_dict_entries (self : addr) (es : list (addr * addr)) : M unit :=
  let* o := load self in
  match o with
  | PyDict _ => store self (PyDict es)
  | SafeDict _ c => store self (SafeDict es c)
  | _ => raise AttributeError
  end.

Fixpoint replace_value (h : heap) (es : list (addr * addr)) (k v : addr)
  : list (addr * addr) :=
  match es with
  | [] => [(k, v)]
  | (k', v') :: es' =>
      if key_eq h k' k then (k', v) :: es'
      else (k', v') :: replace_value h es' k v
  end.

(** [dict.__setitem__]: the value of an equal key is replaced in place, a
    new key goes to the end. *)
Definition dict_setitem (self k v : addr) : M unit :=
  let* _ := check_hashable k in
  let* es := dict_entries self in
  fun h => set_dict_entries self (replace_value h es k v) h.

(** [dict.update(other)]: a mapping is merged entry by entry; any other
    argument is iterated and each element must unpack into a key and a
    value. *)
Definition dict_update (self other : addr) : M unit :=
  let* o := load other in
  match as_mapping o with
  | Some es => for_each (fun e => dict_setitem self (fst e) (snd e)) es
  | None =>
      let* elems := py_iter other in
      for_each (fun e =>
                  let* kv := py_iter e in
                  match kv with
                  | [k; v] => dict_setitem self k v
                  | _ => raise ValueError
                  end) elems
  end.

(** The dict that receives the keyword arguments of a call. *)
Definition make_kwargs (kvs : list (string * addr)) : M addr :=
  let* ks := alloc_all (map (fun kv => PyStr (fst kv)) kvs) in
  alloc (PyDict (combine ks (map snd kvs))).

(** [sum(approx_len_of(other) for other in s)]. *)
Fixpoint sum_sizes (d : nat) (s : list addr) : M Z :=
  match s with
  | [] => ret 0
  | other :: s' =>
      let* n := size_of d other in
      let* rest := sum_sizes d s' in
      ret (n + rest)
  end.

(** ** Lookup failures

    The shrinking operations can fail with [IndexError] and [KeyError] on
    top of the exceptions above; they run in the same monad with the wider
    exception type. *)

Inductive failure : Type :=
| Builtin (e : exn)
| IndexError
| KeyError.

Inductive result (A : Type) : Type :=
| Returns (v : A) (h : heap)
| Fails (e : failure) (h : heap).
Arguments Returns {A} v h.
Arguments Fails {A} e h.

Definition P (A : Type) : Type := heap -> result A.

Definition retP {A} (x : A) : P A := fun h => Returns x h.
Definition failP {A} (e : failure) : P A := fun h => Fails e h.
Definition bindP {A B} (m : P A) (k : A -> P B) : P B :=
  fun h => match m h with
           | Returns x h' => k x h'
           | Fails e h' => Fails e h'
           end.

(** A computation of the narrower monad, run in the wider one. *)
Definition run {A} (m : M A) : P A :=
  fun h => match m h with
           | Ok x h' => Returns x h'
           | Raise e h' => Fails (Builtin e) h'
           end.

Notation "'let+' x ':=' m 'in' k" := (bindP m (fun x => k))
  (at level 10, x name, m at level 100, k at level 200).

Definition result_heap {A} (r : result A) : heap :=
  match r with Returns _ h => h | Fails _ h => h end.

(** ** Native operations that shrink *)

(** The position [list.pop(i)] removes from a list of [n] elements: a
    negative index counts from the end, and an index outside the list is
    an [IndexError]. *)
Definition pop_index (n : nat) (i : Z) : option nat :=
  let j := if i <? 0 then i + Z.of_nat n else i in
  if (0 <=? j) && (j <? Z.of_nat n) then Some (Z.to_nat j) else None.

(** [UserList.pop]: [self.data.pop(i)]. *)
Definition list_pop (self : addr) (i : Z) : P addr :=
  let+ xs := run (get_data self) in
  match pop_index (length xs) i with
  | None => failP IndexError
  | Some j =>
      match xs !! j with
      | Some x => let+ _ := run (set_data self (delete j xs)) in retP x
      | None => failP IndexError
      end
  end.

(** What is left of a list once its first element equal to [item] is
    taken out, [None] when no element is. *)
Fixpoint remove_first (d : nat) (h : heap) (xs : list addr) (item : addr)
  : res (option (list addr)) :=
  match xs with
  | [] => Val None
  | x :: xs' =>
      match py_eq d h (Ref x) (Ref item) with
      | Val true => Val (Some xs')
      | Val false =>
          match remove_first d h xs' item with
          | Val (Some r) => Val (Some (x :: r))
          | r => r
          end
      | Err e => Err e
      end
  end.

(** [UserList.remove]: [self.data.remove(item)], a [ValueError] when the
    item is not in the list. *)
Definition list_remove (d : nat) (self item : addr) : M unit :=
  let* xs := get_data self in
  let* r := lift (fun h => remove_first d h xs item) in
  match r with
  | None => raise ValueError
  | Some xs' => set_data self xs'
  end.

(** [set.pop]: some element is taken out, here the first in iteration
    order; a [KeyError] on an empty set. *)
Definition set_pop (self : addr) : P addr :=
  let+ xs := run (set_items self) in
  match xs with
  | [] => failP KeyError
  | x :: xs' => let+ _ := run (set_set_items self xs') in retP x
  end.

(** [set.remove]: like [discard], but a [KeyError] when the element is
    not a member. *)
Definition set_remove (self e : addr) : P unit :=
  let+ o := run (load e) in
  match as_set o with
  | Some _ => failP KeyError
  | None =>
      let+ _ := run (check_hashable e) in
      let+ xs := run (set_items self) in
      fun h =>
        if existsb (fun x => key_eq h x e) xs
        then run (set_set_items self
                    (List.filter (fun x => negb (key_eq h x e)) xs)) h
        else Fails KeyError h
  end.

(** The value of the first entry whose key equals [k], and the other
    entries. *)
Fixpoint remove_key (h : heap) (es : list (addr * addr)) (k : addr)
  : option (addr * list (addr * addr)) :=
  match es with
  | [] => None
  | (k', v) :: es' =>
      if key_eq h k' k then Some (v, es')
      else match remove_key h es' k with
           | Some (w, r) => Some (w, (k', v) :: r)
           | None => None
           end
  end.

(** [dict.pop(k)] without a default, which is also what [del d[k]] does to
    the entries: a [KeyError] when the key is missing. *)
Definition dict_pop (self k : addr) : P addr :=
  let+ _ := run (check_hashable k) in
  let+ es := run (dict_entries self) in
  fun h =>
    match remove_key h es k with
    | None => Fails KeyError h
    | Some (v, es') =>
        (let+ _ := run (set_dict_entries self es') in retP v) h
    end.

(** ** Native text operations *)

Definition pad (c : ascii) (n : Z) : string :=
  string_of_list_ascii (repeat c (Z.to_nat n)).

(** [str.ljust], [str.rjust] and [str.center]: a text at least as long as
    the width comes back as it is. *)
Definition native_ljust (s : string) (width : Z) (fill : ascii) : string :=
  if width <=? py_len s then s else (s ++ pad fill (width - py_len s))%string.

Definition native_rjust (s : string) (width : Z) (fill : ascii) : string :=
  if width <=? py_len s then s else (pad fill (width - py_len s) ++ s)%string.

Definition native_center (s : string) (width : Z) (fill : ascii) : string :=
  if width <=? py_len s then s
  else
    let marg := width - py_len s in
    let left := marg / 2 + Z.land (Z.land marg width) 1 in
    (pad fill left ++ s ++ pad fill (marg - left))%string.

(** [str.zfill]: zeros go after a leading sign. *)
Definition native_zfill (s : string) (width : Z) : string :=
  if width <=? py_len s then s
  else
    let zeros := pad "0"%char (width - py_len s) in
    match s with
    | String c rest =>
        if (Ascii.eqb c "+" || Ascii.eqb c "-")%char
        then String c (zeros ++ rest)
        else (zeros ++ s)%string
    | EmptyString => zeros
    end.

Definition tab : ascii := Ascii.ascii_of_nat 9.
Definition newline : ascii := Ascii.ascii_of_nat 10.
Definition carriage_return : ascii := Ascii.ascii_of_nat 13.

(** [self.count('\t')]. *)
Definition count_tabs (s : string) : Z :=
  Z.of_nat (length (List.filter (Ascii.eqb tab) (list_ascii_of_string s))).

(** [str.expandtabs]: a tab becomes the spaces that lead to the next
    multiple of [tabsize] (none for a [tabsize] that is not positive); the
    column [j] starts again after a line break. *)
Fixpoint expand (tabsize : Z) (j : Z) (cs : list ascii) : list ascii :=
  match cs with
  | [] => []
  | c :: cs' =>
      if Ascii.eqb c tab then
        if 0 <? tabsize then
          let incr := tabsize - j mod tabsize in
          repeat " "%char (Z.to_nat incr) ++ expand tabsize (j + incr) cs'
        else expand tabsize j cs'
      else
        c :: expand tabsize
               (if Ascii.eqb c newline || Ascii.eqb c carriage_return
                then 0 else j + 1) cs'
  end.

Definition native_expandtabs (s : string) (tabsize : Z) : string :=
  string_of_list_ascii (expand tabsize 0 (list_ascii_of_string s)).

(** [str.count(sub)] and [str.replace(old, new, count)] scan from the
    left for occurrences that do not overlap; [skip] is the number of
    characters of the current occurrence still to pass over.  An empty
    [old] occurs before every character and at the end. *)
Fixpoint is_prefix (p s : list ascii) : bool :=
  match p, s with
  | [], _ => true
  | a :: p', b :: s' => Ascii.eqb a b && is_prefix p' s'
  | _ :: _, [] => false
  end.

Fixpoint count_from (old : list ascii) (skip : nat) (s : list ascii) : nat :=
  match s with
  | [] => O
  | _ :: s' =>
      match skip with
      | S k => count_from old k s'
      | O =>
          if is_prefix old s then S (count_from old (length old - 1) s')
          else count_from old 0 s'
      end
  end.

Definition native_count (s sub : string) : Z :=
  match list_ascii_of_string sub with
  | [] => py_len s + 1
  | old => Z.of_nat (count_from old 0 (list_ascii_of_string s))
  end.

Fixpoint replace_from (old new : list ascii) (budget skip : nat)
  (s : list ascii) : list ascii :=
  match s with
  | [] => []
  | c :: s' =>
      match skip with
      | S k => replace_from old new budget k s'
      | O =>
          match budget with
          | S b =>
              if is_prefix old s
              then new ++ replace_from old new b (length old - 1) s'
              else c :: replace_from old new budget 0 s'
          | O => c :: replace_from old new 0 0 s'
          end
      end
  end.

Fixpoint interleave (new : list ascii) (budget : nat) (s : list ascii)
  : list ascii :=
  match budget with
  | O => s
  | S b =>
      new ++ match s with
             | [] => []
             | c :: s' => c :: interleave new b s'
             end
  end.

(** A negative [maxsplit] replaces every occurrence. *)
Definition native_replace (s old new : string) (maxsplit : Z) : string :=
  let cs := list_ascii_of_string s in
  let budget := if maxsplit <? 0 then S (length cs) else Z.to_nat maxsplit in
  string_of_list_ascii
    match list_ascii_of_string old with
    | [] => interleave (list_ascii_of_string new) budget cs
    | o => replace_from o (list_ascii_of_string new) budget 0 cs
    end.

(** [len(o)], a [TypeError] for an object without a length. *)
Definition sized_len (o : obj) : option Z :=
  match o with
  | PyInt _ => None
  | PyStr s | SafeStr s => Some (py_len s)
  | PyList xs | PySet xs | SafeList xs _ | SafeSet xs _ =>
      Some (Z.of_nat (length xs))
  | PyDict es | SafeDict es _ => Some (Z.of_nat (length es))
  end.

Definition len_of (a : addr) : M Z :=
  let* o := load a in
  match sized_len o with
  | Some n => ret n
  | None => raise TypeError
  end.

(** A text argument of a native text method; [UserString] unwraps its
    own kind, anything else is a [TypeError]. *)
Definition text_arg (a : addr) : M string :=
  let* o := load a in
  match as_text o with
  | Some s => ret s
  | None => raise TypeError
  end.

(** The optional fill character of [center], [ljust] and [rjust]: a
    native text of exactly one character, a space when left out. *)
Definition fill_char (args : list addr) : M ascii :=
  match args with
  | [] => ret " "%char
  | [a] =>
      let* o := load a in
      match o with
      | PyStr (String c EmptyString) => ret c
      | _ => raise TypeError
      end
  | _ => raise TypeError
  end.

(** ** The bounded classes

    Each module is one of the class factories of the source; its section
    variable is the [config] the factory closes over, and the level budget
    [d] is the recursion depth left to the interpreter at the call. *)

Module safe_list.
Section WithConfig.
Variable config : config.

(** [SafeList.__init__]: [UserList.__init__] copies the elements of the
    initial list, if any, into [self.data]. *)
Definition init (d : nat) (initlist : option addr) : M addr :=
  let* self := alloc (SafeList [] None) in
  let* xs := match initlist with
             | None => ret []
             | Some l => py_iter l
             end in
  let* _ := set_data self xs in
  let* n := size_of d self in
  let* _ := set_cached self n in
  ret self.

Definition append (d : nat) (self obj : addr) : M unit :=
  let* n := size_of d self in
  if n + 1 >? max_const_len config
  then raise_in_context IterableTooLong
  else
    let* _ := list_append self obj in
    add_cached self 1.

Definition extend (d : nat) (self iterable : addr) : M unit :=
  let* other_len := size_of d iterable in
  let* n := size_of d self in
  if n + other_len >? max_const_len config
  then raise_in_context IterableTooLong
  else
    let* _ := list_extend self iterable in
    add_cached self other_len.

(** [SafeList.__mul__] *)
Definition mul (d : nat) (self : addr) (n : Z) : M addr :=
  let* new := init d None in
  let* xs := get_data self in
  let* _ := set_data new (list_repeat xs n) in
  let* c := get_cached self in
  let* _ := set_cached new (c * n) in
  ret new.
(** [SafeList.pop] *)
Definition pop (self : addr) (i : Z) : P addr :=
  let+ retval := list_pop self i in
  let+ _ := run (add_cached self (-1)) in
  retP retval.

Definition remove (d : nat) (self item : addr) : M unit :=
  let* _ := list_remove d self item in
  add_cached self (-1).

Definition clear (self : addr) : M unit :=
  let* _ := set_data self [] in
  set_cached self 0.
End WithConfig.
End safe_list.

Module safe_set.
Section WithConfig.
Variable config : config.

(** [SafeSet.__init__]: [set.__init__] adds the elements of the
    iterable, if any. *)
Definition init (d : nat) (iterable : option addr) : M addr :=
  let* self := alloc (SafeSet [] None) in
  let* _ := match iterable with
            | None => ret tt
            | Some s => set_update self [s]
            end in
  let* n := size_of d self in
  let* _ := set_cached self n in
  ret self.

Definition update (d : nat) (self : addr) (s : list addr) : M unit :=
  let* other_lens := sum_sizes d s in
  let* n := size_of d self in
  if n + other_lens >? max_const_len config
  then raise_in_context IterableTooLong
  else
    let* _ := set_update self s in
    add_cached self other_lens.

Definition add (d : nat) (self element : addr) : M unit :=
  let* n := size_of d self in
  if n + 1 >? max_const_len config
  then raise_in_context IterableTooLong
  else
    let* _ := set_add self element in
    add_cached self 1.

(** [SafeSet.union]: the native union is a plain set, from which the new
    bounded set is built. *)
Definition union (d : nat) (self : addr) (s : list addr) : M addr :=
  let* n := size_of d self in
  let* other_lens := sum_sizes d s in
  if n + other_lens >? max_const_len config
  then raise_in_context IterableTooLong
  else
    let* xs := set_items self in
    let* u := alloc (PySet xs) in
    let* _ := set_update u s in
    init d (Some u).

Definition discard (self element : addr) : M unit :=
  let* _ := set_discard self element in
  add_cached self (-1).
(** [SafeSet.pop] *)
Definition pop (self : addr) : P addr :=
  let+ retval := set_pop self in
  let+ _ := run (add_cached self (-1)) in
  retP retval.

Definition remove (self element : addr) : P unit :=
  let+ _ := set_remove self element in
  run (add_cached self (-1)).

Definition clear (self : addr) : M unit :=
  let* _ := set_set_items self [] in
  set_cached self 0.
End WithConfig.
End safe_set.

Module safe_dict.
Section WithConfig.
Variable config : config.

(** [SafeDict.__init__]: [dict.__init__] takes an optional mapping or
    iterable of pairs, then the keyword arguments. *)
Definition init (d : nat) (arg : option addr) (kwargs : list (string * addr))
  : M addr :=
  let* self := alloc (SafeDict [] None) in
  let* _ := match arg with
            | None => ret tt
            | Some o => dict_update self o
            end in
  let* kw := make_kwargs kwargs in
  let* _ := dict_update self kw in
  let* n := size_of d self in
  let* _ := set_cached self n in
  ret self.

Definition update (d : nat) (self : addr) (other_dict : option addr)
           (kvs : list (string * addr)) : M unit :=
  let* kw := make_kwargs kvs in
  let* other := match other_dict with
                | None => alloc (PyDict [])
                | Some o => ret o
                end in
  let* n1 := size_of d other in
  let* n2 := size_of d kw in
  let other_lens := n1 + n2 in
  let* n := size_of d self in
  if n + other_lens >? max_const_len config
  then raise_in_context IterableTooLong
  else
    let* _ := dict_update self other in
    let* _ := dict_update self kw in
    add_cached self other_lens.

(** [SafeDict.__setitem__]: the cached size is raised before the native
    assignment runs. *)
Definition setitem (d : nat) (self key value : addr) : M unit :=
  let* other_len := size_of d value in
  let* n := size_of d self in
  if n + other_len >? max_const_len config
  then raise_in_context IterableTooLong
  else
    let* _ := add_cached self other_len in
    dict_setitem self key value.
(** [SafeDict.pop] *)
Definition pop (self k : addr) : P addr :=
  let+ retval := dict_pop self k in
  let+ _ := run (add_cached self (-1)) in
  retP retval.

(** [SafeDict.__delitem__] *)
Definition delitem (self key : addr) : P unit :=
  let+ _ := dict_pop self key in
  run (add_cached self (-1)).
End WithConfig.
End safe_dict.

Module safe_str.
Section WithConfig.
Variable config : config.

Definition get_text (self : addr) : M string :=
  let* o := load self in
  match as_text o with
  | Some s => ret s
  | None => raise AttributeError
  end.

(** [str.join] of the native text: every piece has to be a native
    [str]. *)
Fixpoint native_pieces (h : heap) (xs : list addr) : res (list string) :=
  match xs with
  | [] => Val []
  | x :: xs' =>
      match h !! x with
      | Some (PyStr s) =>
          match native_pieces h xs' with
          | Val ss => Val (s :: ss)
          | Err e => Err e
          end
      | _ => Err TypeError
      end
  end.

Definition encode (self : addr) (args : list addr)
           (kwargs : list (string * addr)) : M addr :=
  raise_in_context FeatureNotAvailable.

Definition format (self : addr) (args : list addr)
           (kwargs : list (string * addr)) : M addr :=
  raise_in_context FeatureNotAvailable.

Definition format_map (self : addr) (mapping : addr) : M addr :=
  raise_in_context FeatureNotAvailable.

(** [str.join]: [UserString.join] returns the native join of
    [self.data], a new native text. *)
Definition join (d : nat) (self seq : addr) : M addr :=
  let* xs := py_iter seq in
  let* i := alloc (PyList xs) in
  let* sep := get_text self in
  let* n := size_of d i in
  if Z.of_nat (length xs) * py_len sep + n >? max_const_len config
  then raise_in_context IterableTooLong
  else
    let* pieces := lift (fun h => native_pieces h xs) in
    alloc (PyStr (String.concat sep pieces)).
(** The result of a text method: [UserString] wraps the native result in
    a new instance of the class. *)
Definition wrap (s : string) : M addr := alloc (SafeStr s).

Definition center (self : addr) (width : Z) (args : list addr) : M addr :=
  if width >? max_const_len config
  then raise_in_context IterableTooLong
  else
    let* s := get_text self in
    let* fill := fill_char args in
    wrap (native_center s width fill).

Definition ljust (self : addr) (width : Z) (args : list addr) : M addr :=
  if width >? max_const_len config
  then raise_in_context IterableTooLong
  else
    let* s := get_text self in
    let* fill := fill_char args in
    wrap (native_ljust s width fill).

Definition rjust (self : addr) (width : Z) (args : list addr) : M addr :=
  if width >? max_const_len config
  then raise_in_context IterableTooLong
  else
    let* s := get_text self in
    let* fill := fill_char args in
    wrap (native_rjust s width fill).

Definition zfill (self : addr) (width : Z) : M addr :=
  if width >? max_const_len config
  then raise_in_context IterableTooLong
  else
    let* s := get_text self in
    wrap (native_zfill s width).

Definition expandtabs (self : addr) (tabsize : Z) : M addr :=
  let* s := get_text self in
  if count_tabs s * tabsize >? max_const_len config
  then raise_in_context IterableTooLong
  else wrap (native_expandtabs s tabsize).

Definition replace (self old new : addr) (maxsplit : Z) : M addr :=
  let* s := get_text self in
  let* n := if 0 <? maxsplit then ret maxsplit
            else let* o := text_arg old in ret (native_count s o) in
  let* ln := len_of new in
  let* lo := len_of old in
  if n * (ln - lo) + py_len s >? max_const_len config
  then raise_in_context IterableTooLong
  else
    let* o := text_arg old in
    let* nw := text_arg new in
    wrap (native_replace s o nw maxsplit).
End WithConfig.
End safe_str.

(** ** Vocabulary of the properties *)

Definition ceiling (n : Z) : config := {| max_const_len := n |}.

(** The recursion limit of a fresh interpreter. *)
Definition recursion_limit : nat := 1000.

Definition result_of {A} (o : outcome A) : res A :=
  match o with Ok v _ => Val v | Raise e _ => Err e end.

(** [stable h h']: every object that carries its cached size in [h] is the
    same object, contents and cached size, in [h']. *)
Definition stable (h h' : heap) : Prop :=
  forall a c, cached_size h a = Some c -> h' !! a = h !! a.

(** Every cached size of [h] is still there, with the same value, in
    [h']. *)
Definition cache_kept (h h' : heap) : Prop :=
  forall a c, cached_size h a = Some c -> cached_size h' a = Some c.

(** What a size estimate may do to the store: it allocates nothing and
    leaves cached objects alone. *)
Definition estimate_step (h h' : heap) : Prop :=
  length h' = length h /\ stable h h'.

(** A computation whose final store is related to the initial one by
    [R], whatever its outcome. *)
Definition keeps {A} (R : heap -> heap -> Prop) (m : M A) : Prop :=
  forall h, R h (final_heap (m h)).

(** A computation that leaves cached objects alone. *)
Definition preserves {A} (m : M A) : Prop := keeps stable m.

(** A computation that keeps every cached size. *)
Definition kept {A} (m : M A) : Prop := keeps cache_kept m.

(** A computation whose exceptions all satisfy [P]. *)
Definition raises_within {A} (P : exn -> Prop) (m : M A) : Prop :=
  forall h e h', m h = Raise e h' -> P e.

(** Exceptions other than the size-limit rejection. *)
Definition accepted_exn (e : exn) : Prop := e <> IterableTooLong.

(** A computation whose size-limit rejections leave cached objects as they
    were. *)
Definition clean_reject {A} (m : M A) : Prop :=
  forall h h', m h = Raise IterableTooLong h' -> stable h h'.

(** The bounded container kinds, and an object with its cached size set
    or put aside. *)
Definition is_bounded (o : obj) : bool :=
  match o with
  | SafeList _ _ | SafeSet _ _ | SafeDict _ _ => true
  | _ => false
  end.

Definition with_cached (o : obj) (n : Z) : obj :=
  match o with
  | SafeList xs _ => SafeList xs (Some n)
  | SafeSet xs _ => SafeSet xs (Some n)
  | SafeDict es _ => SafeDict es (Some n)
  | _ => o
  end.

Definition without_cached (o : obj) : obj :=
  match o with
  | SafeList xs _ => SafeList xs None
  | SafeSet xs _ => SafeSet xs None
  | SafeDict es _ => SafeDict es None
  | _ => o
  end.

(** What a full traversal of a container's current contents computes: the
    estimate of the object once its cached size is put aside. *)
Definition forget_cached (a : addr) (h : heap) : heap :=
  match h !! a with
  | Some o => <[a := without_cached o]> h
  | None => h
  end.

Definition traversal_size (d : nat) (a : addr) (h : heap) : res Z :=
  result_of (size_of d a (forget_cached a h)).

(** The cached size of a container agrees with a full traversal of its
    contents. *)
Definition in_sync (d : nat) (self : addr) (h : heap) : Prop :=
  exists c, cached_size h self = Some c /\ traversal_size d self h = Val c.

(** The growing operations of the bounded containers, as calls on a
    receiver. *)
Inductive grow_call : Type :=
| ListAppend (obj : addr)
| ListExtend (iterable : addr)
| SetAdd (element : addr)
| SetUpdate (s : list addr)
| SetUnion (s : list addr)
| DictUpdate (other_dict : option addr) (kvs : list (string * addr))
| DictSetitem (key value : addr).

(** Running a call; the result is the new object, if the call returns
    one. *)
Definition run_call (cfg : config) (d : nat) (self : addr) (c : grow_call)
  : M (option addr) :=
  match c with
  | ListAppend obj => let* _ := safe_list.append cfg d self obj in ret None
  | ListExtend it => let* _ := safe_list.extend cfg d self it in ret None
  | SetAdd e => let* _ := safe_set.add cfg d self e in ret None
  | SetUpdate s => let* _ := safe_set.update cfg d self s in ret None
  | SetUnion s => let* r := safe_set.union cfg d self s in ret (Some r)
  | DictUpdate o kvs => let* _ := safe_dict.update cfg d self o kvs in ret None
  | DictSetitem k v => let* _ := safe_dict.setitem cfg d self k v in ret None
  end.

(** The calls that grow their receiver in place. *)
Definition in_place (c : grow_call) : bool :=
  match c with
  | SetUnion _ => false
  | _ => true
  end.

(** The two growing calls of a bounded sequence. *)
Inductive seq_call : Type :=
| Append (obj : addr)
| Extend (iterable : addr).

Definition run_seq_call (cfg : config) (d : nat) (self : addr) (c : seq_call)
  : M unit :=
  match c with
  | Append obj => safe_list.append cfg d self obj
  | Extend iterable => safe_list.extend cfg d self iterable
  end.

Definition is_int (h : heap) (a : addr) : Prop :=
  exists z, h !! a = Some (PyInt z).

(** A call whose argument is an int, or a native list of ints. *)
Definition int_call (h : heap) (c : seq_call) : Prop :=
  match c with
  | Append obj => is_int h obj
  | Extend iterable =>
      exists ys, h !! iterable = Some (PyList ys) /\ Forall (is_int h) ys
  end.

(** Membership by identity alone, the reading of [child in visited] that
    the specification gives, and the estimator that would result from
    it. *)
Definition identity_member (vis : list value) (child : value) : bool :=
  existsb (fun y => value_is y child) vis.

Fixpoint approx_len_of_by_identity (d : nat) (obj : value)
  (visited : option (list value)) {struct d} : M (Z * list value) :=
  fun h =>
    match text_len h obj with
    | Some n => Ok (n, default [] visited) h
    | None =>
      match approx_attr h obj with
      | Some n => Ok (n, default [] visited) h
      | None =>
        let visited := default [obj] visited in
        let size := length_hint h obj in
        match children h obj with
        | None => (let* _ := memoize obj size in ret (size, visited)) h
        | Some cs =>
            (let* '(size', visited') :=
               visit_children
                 (fun child vis =>
                    match d with
                    | O => raise RecursionError
                    | S d' => approx_len_of_by_identity d' child (Some vis)
                    end)
                 (fun vis child => ret (identity_member vis child))
                 cs size visited in
             let* _ := memoize obj size' in
             ret (size', visited')) h
        end
      end
    end.

(** ** Scenario stores *)

(** Bounded text ["ab"], three one-character pieces and the list of
    them. *)
Definition h_join : heap :=
  [SafeStr "ab"; PyStr "x"; PyStr "y"; PyStr "z"; PyList [1; 2; 3]%nat].

(** Two lists, each the only element of the other. *)
Definition h_mutual : heap := [PyList [1%nat]; PyList [0%nat]].

(** A list that is its own only element. *)
Definition h_self : heap := [PyList [0%nat]].

(** A list of two distinct lists with equal contents, and the same list
    holding one of them twice. *)
Definition h_twins : heap :=
  [PyList [1; 2]%nat; PyList [3; 4]%nat; PyList [3; 4]%nat; PyInt 1; PyInt 2].
Definition h_shared : heap :=
  [PyList [1; 1]%nat; PyList [3; 4]%nat; PyList [3; 4]%nat; PyInt 1; PyInt 2].

(** An empty bounded mapping next to two ints, an empty bounded sequence
    next to the text ["abc"], and an empty bounded set next to an int. *)
Definition h_small_dict : heap := [PyInt 1; PyInt 2; SafeDict [] (Some 0)].
Definition h_text_append : heap := [PyStr "abc"; SafeList [] (Some 0)].
Definition h_empty_set : heap := [PyInt 1; SafeSet [] (Some 0)].

(** Three ints with a bounded sequence of them; with a bounded set and a
    native list of them; a bounded mapping with the one entry ["k": 7]; and
    a bounded sequence next to the ints and the list it will be grown
    with. *)
Definition h_three : heap :=
  [PyInt 1; PyInt 2; PyInt 3; SafeList [0; 1; 2]%nat (Some 3)].
Definition h_set_and_list : heap :=
  [PyInt 1; PyInt 2; PyInt 3; SafeSet [0; 1; 2]%nat (Some 3);
   PyList [0; 1; 2]%nat].
Definition h_one_entry : heap :=
  [PyStr "k"; PyInt 7; PyStr "abc"; SafeDict [(0, 1)%nat] (Some 4)].
Definition h_int_calls : heap :=
  [PyInt 1; PyInt 2; PyInt 3; PyList [0; 1]%nat; SafeList [2%nat] (Some 1)].

(** ** Vocabulary of the further properties *)

(** The objects the estimator can attach its result to: a bounded list or
    set that has no cached size yet. *)
Definition memoizable (o : obj) : bool :=
  match o with
  | SafeList _ None | SafeSet _ None => true
  | _ => false
  end.

(** [memo_only h h']: the two stores hold the same objects, except that
    some memoizable objects of [h] have received a cached size in [h']. *)
Definition memo_only (h h' : heap) : Prop :=
  length h' = length h /\
  forall a o, h !! a = Some o ->
    h' !! a = Some o \/
    (memoizable o = true /\ exists n, h' !! a = Some (with_cached o n)).

(** No cached size of the store is negative. *)
Definition nonneg_caches (h : heap) : Prop :=
  forall a c, cached_size h a = Some c -> 0 <= c.

(** The operations of a bounded sequence that move single elements in or
    out, as calls on a receiver. *)
Inductive slot_call : Type :=
| SlotAppend (obj : addr)
| SlotPop (i : Z)
| SlotRemove (item : addr).

Definition run_slot_call (cfg : config) (d : nat) (self : addr) (c : slot_call)
  : P (option addr) :=
  match c with
  | SlotAppend obj =>
      let+ _ := run (safe_list.append cfg d self obj) in retP None
  | SlotPop i => let+ x := safe_list.pop self i in retP (Some x)
  | SlotRemove item => let+ _ := run (safe_list.remove d self item) in retP None
  end.

(** How far the cached size of a bounded sequence is from the number of
    its elements. *)
Definition slack (h : heap) (self : addr) : option Z :=
  match h !! self with
  | Some (SafeList xs (Some c)) => Some (c - Z.of_nat (length xs))
  | _ => None
  end.

(** * Properties *)

(** ** The monad *)

Lemma bind_ok {A B} (m : M A) (k : A -> M B) h x h1 :
  m h = Ok x h1 -> bind m k h = k x h1.
Proof. unfold bind. now intros ->. Qed.

Lemma bind_raise {A B} (m : M A) (k : A -> M B) h e h1 :
  m h = Raise e h1 -> bind m k h = Raise e h1.
Proof. unfold bind. now intros ->. Qed.

Lemma bind_inv_ok {A B} (m : M A) (k : A -> M B) h y h2 :
  bind m k h = Ok y h2 -> exists x h1, m h = Ok x h1 /\ k x h1 = Ok y h2.
Proof. unfold bind. destruct (m h) as [x h1|e h1]; [eauto | discriminate]. Qed.

Lemma bind_inv_raise {A B} (m : M A) (k : A -> M B) h e h2 :
  bind m k h = Raise e h2 ->
  m h = Raise e h2 \/ exists x h1, m h = Ok x h1 /\ k x h1 = Raise e h2.
Proof.
  unfold bind. destruct (m h) as [x h1|e' h1]; intros H.
  - right. eauto.
  - left. now inversion H.
Qed.

(** ** Objects that already carry their cached size are never touched by a
    size estimate *)

Lemma stable_refl h : stable h h.
Proof. now intros a c _. Qed.

Lemma stable_cached h h' a c :
  stable h h' -> cached_size h a = Some c -> cached_size h' a = Some c.
Proof. intros Hs Hc. unfold cached_size. now rewrite (Hs a c Hc). Qed.

Lemma stable_trans h1 h2 h3 : stable h1 h2 -> stable h2 h3 -> stable h1 h3.
Proof.
  intros H12 H23 a c Hc.
  rewrite (H23 a c (stable_cached _ _ _ _ H12 Hc)). eauto.
Qed.

Lemma cached_size_lt h a c : cached_size h a = Some c -> (a < length h)%nat.
Proof.
  unfold cached_size. destruct (h !! a) eqn:E; [|discriminate].
  intros _. eapply lookup_lt_Some; eauto.
Qed.

Lemma stable_app h os : stable h (h ++ os).
Proof. intros a c Hc. apply lookup_app_l. eapply cached_size_lt; eauto. Qed.


(** Relations on stores that computations keep, generically. *)
Section Keeps.
Variable R : heap -> heap -> Prop.
Hypothesis R_refl : forall h, R h h.
Hypothesis R_trans : forall h1 h2 h3, R h1 h2 -> R h2 h3 -> R h1 h3.

Lemma keeps_ret {A} (x : A) : keeps R (ret x).
Proof. intros h. apply R_refl. Qed.

Lemma keeps_raise {A} e : keeps R (@raise A e).
Proof. intros h. apply R_refl. Qed.

Lemma keeps_lift {A} (f : heap -> res A) : keeps R (lift f).
Proof. intros h. unfold lift. destruct (f h); apply R_refl. Qed.

Lemma keeps_load a : keeps R (load a).
Proof. intros h. unfold load. destruct (h !! a); apply R_refl. Qed.

Lemma keeps_bind {A B} (m : M A) (k : A -> M B) :
  keeps R m -> (forall x, keeps R (k x)) -> keeps R (bind m k).
Proof.
  intros Hm Hk h. unfold bind. specialize (Hm h).
  destruct (m h) as [x h1|e h1]; simpl in *; [|assumption].
  eapply R_trans; [eassumption | apply Hk].
Qed.

Lemma keeps_visit_children rec contains cs :
  (forall c vis, keeps R (rec c vis)) ->
  (forall vis c, keeps R (contains vis c)) ->
  forall size vis, keeps R (visit_children rec contains cs size vis).
Proof.
  intros Hrec Hcon. induction cs as [|child rest IH]; intros size vis; simpl.
  - apply keeps_ret.
  - apply keeps_bind; [apply Hcon|]. intros [|]; [apply IH|].
    apply keeps_bind; [apply Hrec|]. intros [n vis1]. apply IH.
Qed.
End Keeps.

Lemma estimate_step_refl h : estimate_step h h.
Proof. split; [reflexivity | apply stable_refl]. Qed.

Lemma estimate_step_trans h1 h2 h3 :
  estimate_step h1 h2 -> estimate_step h2 h3 -> estimate_step h1 h3.
Proof.
  intros [L12 S12] [L23 S23]. split; [congruence | eapply stable_trans; eauto].
Qed.

Lemma keeps_weaken {A} (R Q : heap -> heap -> Prop) (m : M A) :
  (forall h h', R h h' -> Q h h') -> keeps R m -> keeps Q m.
Proof. intros HRQ Hm h. apply HRQ, Hm. Qed.

Lemma preserves_ret {A} (x : A) : preserves (ret x).
Proof. apply keeps_ret, stable_refl. Qed.

Lemma preserves_raise {A} e : preserves (@raise A e).
Proof. apply keeps_raise, stable_refl. Qed.

Lemma preserves_lift {A} (f : heap -> res A) : preserves (lift f).
Proof. apply keeps_lift, stable_refl. Qed.

Lemma preserves_load a : preserves (load a).
Proof. apply keeps_load, stable_refl. Qed.

Lemma preserves_bind {A B} (m : M A) (k : A -> M B) :
  preserves m -> (forall x, preserves (k x)) -> preserves (bind m k).
Proof. apply keeps_bind, stable_trans. Qed.

Lemma preserves_alloc o : preserves (alloc o).
Proof. intros h. apply stable_app. Qed.

Create HintDb pres.
#[local] Hint Resolve preserves_ret preserves_raise preserves_lift
  preserves_alloc preserves_load : pres.

Lemma preserves_alloc_all os : preserves (alloc_all os).
Proof.
  induction os as [|o os IH]; simpl; [auto with pres|].
  apply preserves_bind; [auto with pres|]. intros a.
  apply preserves_bind; [assumption|]. auto with pres.
Qed.

Lemma preserves_py_iter a : preserves (py_iter a).
Proof.
  unfold py_iter. apply preserves_bind; [auto with pres|].
  intros []; auto using preserves_alloc_all with pres.
Qed.

Lemma memoize_step h h1 v n :
  approx_attr h v = None -> estimate_step h h1 ->
  estimate_step h (final_heap (memoize v n h1)).
Proof.
  intros Hnone [Hl Hs]. unfold memoize.
  destruct v as [a|k v]; [|now split].
  assert (Hne : forall o, estimate_step h (<[a := o]> h1)).
  { intros o. split; [now rewrite length_insert|].
    intros x c Hc. rewrite list_lookup_insert_ne; [now apply (Hs x c)|].
    intros ->. simpl in Hnone. congruence. }
  destruct (h1 !! a) as [[]|]; simpl; auto; now split.
Qed.

Lemma memoize_ret_heap {A} v n (x : A) h :
  final_heap ((let* _ := memoize v n in ret x) h) = final_heap (memoize v n h).
Proof.
  unfold bind, memoize, ret.
  destruct v as [a|k w]; [|reflexivity]. destruct (h !! a) as [[]|]; reflexivity.
Qed.

Lemma estimate_tail rec contains cs size vis obj h :
  approx_attr h obj = None ->
  keeps estimate_step (visit_children rec contains cs size vis) ->
  estimate_step h (final_heap
    ((let* '(size', visited') := visit_children rec contains cs size vis in
      let* _ := memoize obj size' in ret (size', visited')) h)).
Proof.
  intros Hattr Hv. specialize (Hv h). unfold bind at 1.
  destruct (visit_children rec contains cs size vis h) as [[n vis'] h1|e h1];
    simpl in *; [|assumption].
  rewrite memoize_ret_heap. now apply memoize_step.
Qed.

(** A size estimate allocates nothing and changes no object that carries
    its cached size. *)
Lemma approx_len_of_step d :
  forall obj visited, keeps estimate_step (approx_len_of d obj visited).
Proof.
  pose proof estimate_step_refl as Hr. pose proof estimate_step_trans as Ht.
  induction d as [|d IH]; intros obj visited h; simpl;
    (destruct (text_len h obj); [apply Hr|]);
    (destruct (approx_attr h obj) eqn:Hattr; [apply Hr|]);
    (destruct (children h obj) as [cs|];
     [|rewrite memoize_ret_heap; now apply memoize_step]);
    apply estimate_tail; trivial;
    apply keeps_visit_children; auto using keeps_lift, keeps_raise.
Qed.

Lemma size_of_step d a : keeps estimate_step (size_of d a).
Proof.
  unfold size_of.
  apply keeps_bind;
    [apply estimate_step_trans | apply approx_len_of_step |].
  intros [n vis]. apply keeps_ret, estimate_step_refl.
Qed.

Lemma sum_sizes_step d s : keeps estimate_step (sum_sizes d s).
Proof.
  induction s as [|other s IH]; simpl; [apply keeps_ret, estimate_step_refl|].
  apply keeps_bind; [apply estimate_step_trans | apply size_of_step |].
  intros n. apply keeps_bind; [apply estimate_step_trans | assumption |].
  intros. apply keeps_ret, estimate_step_refl.
Qed.

Lemma approx_len_of_preserves d obj visited :
  preserves (approx_len_of d obj visited).
Proof.
  eapply keeps_weaken; [|apply approx_len_of_step]. now intros h h' [_ H].
Qed.

Lemma preserves_size_of d a : preserves (size_of d a).
Proof. eapply keeps_weaken; [|apply size_of_step]. now intros h h' [_ H]. Qed.

Lemma preserves_sum_sizes d s : preserves (sum_sizes d s).
Proof. eapply keeps_weaken; [|apply sum_sizes_step]. now intros h h' [_ H]. Qed.

Lemma preserves_make_kwargs kvs : preserves (make_kwargs kvs).
Proof.
  unfold make_kwargs. apply preserves_bind; [apply preserves_alloc_all|].
  auto with pres.
Qed.

#[local] Hint Resolve preserves_size_of preserves_sum_sizes preserves_py_iter
  preserves_make_kwargs preserves_alloc_all : pres.

(** The fast path: an object that carries its cached size is not
    traversed. *)
Lemma cached_not_text h a c : cached_size h a = Some c -> text_len h (Ref a) = None.
Proof.
  unfold cached_size; simpl. destruct (h !! a) as [[]|]; simpl; congruence.
Qed.

Lemma approx_len_of_cached d h a c visited :
  cached_size h a = Some c ->
  approx_len_of d (Ref a) visited h = Ok (c, default [] visited) h.
Proof.
  intros Hc. pose proof (cached_not_text _ _ _ Hc) as Ht.
  destruct d; simpl in *; rewrite Ht, Hc; reflexivity.
Qed.

Lemma size_of_cached d h a c : cached_size h a = Some c -> size_of d a h = Ok c h.
Proof.
  intros Hc. unfold size_of.
  now rewrite (bind_ok _ _ _ _ _ (approx_len_of_cached d h a c None Hc)).
Qed.

(** ** Which exceptions a computation can raise *)

Lemma raises_ret {A} P (x : A) : raises_within P (ret x).
Proof. intros h e h' H. discriminate. Qed.

Lemma raises_raise {A} (P : exn -> Prop) e : P e -> raises_within P (@raise A e).
Proof. intros HP h e' h' H. now inversion H; subst. Qed.

Lemma raises_bind {A B} P (m : M A) (k : A -> M B) :
  raises_within P m -> (forall x, raises_within P (k x)) ->
  raises_within P (bind m k).
Proof.
  intros Hm Hk h e h' H. apply bind_inv_raise in H as [H|(x & h1 & _ & H)].
  - eapply Hm; eauto.
  - eapply Hk; eauto.
Qed.

Lemma raises_weaken {A} (P Q : exn -> Prop) (m : M A) :
  (forall e, P e -> Q e) -> raises_within P m -> raises_within Q m.
Proof. intros HPQ Hm h e h' H. eapply HPQ, Hm; eauto. Qed.

Lemma raises_lift {A} (P : exn -> Prop) (f : heap -> res A) :
  (forall h e, f h = Err e -> P e) -> raises_within P (lift f).
Proof.
  intros Hf h e h' H. unfold lift in H.
  destruct (f h) eqn:E; inversion H; subst. eauto.
Qed.

Lemma raises_load P a : P AttributeError -> raises_within P (load a).
Proof.
  intros HP h e h' H. unfold load in H.
  destruct (h !! a); inversion H; now subst.
Qed.

Lemma raises_store P a o : raises_within P (store a o).
Proof. intros h e h' H. discriminate. Qed.

Lemma raises_alloc P o : raises_within P (alloc o).
Proof. intros h e h' H. discriminate. Qed.

Lemma raises_alloc_all P os : raises_within P (alloc_all os).
Proof.
  induction os as [|o os IH]; simpl; [apply raises_ret|].
  apply raises_bind; [apply raises_alloc|]. intros a.
  apply raises_bind; [assumption|]. intros. apply raises_ret.
Qed.

Lemma raises_for_each {A} P (f : A -> M unit) l :
  (forall x, raises_within P (f x)) -> raises_within P (for_each f l).
Proof.
  intros Hf. induction l as [|x l IH]; simpl; [apply raises_ret|].
  apply raises_bind; auto.
Qed.

(** Comparisons fail only by exhausting the recursion limit. *)
Section CompareErrors.
Variable cmp : value -> value -> res bool.
Hypothesis cmp_err : forall x y e, cmp x y = Err e -> e = RecursionError.

Lemma all_eq_err xs : forall ys e, all_eq cmp xs ys = Err e -> e = RecursionError.
Proof.
  induction xs as [|x xs IH]; intros [|y ys] e; simpl; try discriminate.
  destruct (cmp x y) as [[|]|e'] eqn:E; try discriminate; eauto.
  intros [= <-]. eauto.
Qed.

Lemma seq_eq_err xs ys e : seq_eq cmp xs ys = Err e -> e = RecursionError.
Proof.
  unfold seq_eq. destruct (Nat.eqb _ _); [apply all_eq_err | discriminate].
Qed.

Lemma entries_eq_err h es' es e :
  entries_eq cmp h es es' = Err e -> e = RecursionError.
Proof.
  induction es as [|[k v] es IH]; simpl; [discriminate|].
  destruct (dict_lookup h es' k) as [v'|]; [|discriminate].
  destruct (cmp (Ref v') (Ref v)) as [[|]|e'] eqn:E; try discriminate; eauto.
  intros [= <-]. eauto.
Qed.

Lemma rich_eq_err h x y e : rich_eq cmp h x y = Err e -> e = RecursionError.
Proof.
  unfold rich_eq. destruct x as [a|k v], y as [b|k' v']; try discriminate.
  - destruct (h !! a) as [o|], (h !! b) as [o'|]; try discriminate.
    unfold obj_eq, dict_eq.
    destruct o, o'; simpl; try discriminate; try apply seq_eq_err;
      (destruct (Nat.eqb _ _); [apply entries_eq_err | discriminate]).
  - apply seq_eq_err.
Qed.
End CompareErrors.

Lemma py_eq_err d h : forall x y e, py_eq d h x y = Err e -> e = RecursionError.
Proof.
  induction d as [|d IH]; intros x y e; simpl;
    destruct (value_is x y); try discriminate.
  - now intros [= <-].
  - now apply rich_eq_err.
Qed.

Lemma py_contains_err d h l x e :
  py_contains d h l x = Err e -> e = RecursionError.
Proof.
  induction l as [|y l IH]; simpl; [discriminate|].
  destruct (py_eq d h y x) as [[|]|e'] eqn:E; try discriminate; eauto.
  intros [= <-]. eapply py_eq_err; eauto.
Qed.

Lemma raises_visit_children P rec contains cs :
  (forall c vis, raises_within P (rec c vis)) ->
  (forall vis c, raises_within P (contains vis c)) ->
  forall size vis, raises_within P (visit_children rec contains cs size vis).
Proof.
  intros Hrec Hcon. induction cs as [|child rest IH]; intros size vis; simpl.
  - apply raises_ret.
  - apply raises_bind; [apply Hcon|]. intros [|]; [apply IH|].
    apply raises_bind; [apply Hrec|]. intros [n vis1]. apply IH.
Qed.

Lemma raises_memoize P v n : raises_within P (memoize v n).
Proof.
  intros h e h' H. unfold memoize in H.
  destruct v as [a|k w]; [|discriminate]. destruct (h !! a) as [[]|]; discriminate.
Qed.

(** The estimator itself raises nothing but [RecursionError]: the
    [TypeError] of a non-iterable object is handled, and nothing else in
    the loop raises one. *)
Lemma approx_len_of_raises d :
  forall obj visited,
    raises_within (fun e => e = RecursionError) (approx_len_of d obj visited).
Proof.
  assert (Hcon : forall d' vis c,
             raises_within (fun e => e = RecursionError)
               (lift (fun h' => py_contains d' h' vis c))).
  { intros. apply raises_lift. intros. eapply py_contains_err; eauto. }
  assert (Htail : forall rec contains cs size vis obj,
             raises_within (fun e => e = RecursionError)
               (visit_children rec contains cs size vis) ->
             raises_within (fun e => e = RecursionError)
               (let* '(size', visited') := visit_children rec contains cs size vis in
                let* _ := memoize obj size' in ret (size', visited'))).
  { intros. apply raises_bind; [assumption|]. intros [n vis'].
    apply raises_bind; [apply raises_memoize|]. intros. apply raises_ret. }
  induction d as [|d IH]; intros obj visited h e h'; simpl;
    (destruct (text_len h obj); [discriminate|]);
    (destruct (approx_attr h obj); [discriminate|]);
    (destruct (children h obj) as [cs|];
     [|intros H;
       exact (raises_bind (fun e => e = RecursionError) _ _
                (raises_memoize _ _ _) (fun _ => raises_ret _ _) _ _ _ H)]);
    refine (Htail _ _ _ _ _ _ _ h e h'); apply raises_visit_children; auto;
    intros; now apply raises_raise.
Qed.

Lemma raises_size_of d a : raises_within accepted_exn (size_of d a).
Proof.
  unfold size_of. apply raises_bind.
  - eapply raises_weaken; [|apply approx_len_of_raises].
    unfold accepted_exn. intros e ->. discriminate.
  - intros [n vis]. apply raises_ret.
Qed.

(** ** Native operations never raise the size-limit rejection *)

Ltac accepted :=
  repeat first
    [ apply raises_ret
    | apply raises_store
    | apply raises_alloc
    | apply raises_alloc_all
    | apply raises_size_of
    | apply raises_load; discriminate
    | apply raises_raise; discriminate
    | apply raises_bind; [|intros ?]
    | apply raises_for_each; intros ?
    | match goal with
      | |- raises_within _ (match ?x with _ => _ end) => destruct x
      | |- raises_within _ (if ?x then _ else _) => destruct x
      end ].

Lemma raises_py_iter a : raises_within accepted_exn (py_iter a).
Proof. unfold py_iter. accepted. Qed.

Lemma raises_set_cached a n : raises_within accepted_exn (set_cached a n).
Proof. unfold set_cached. accepted. Qed.

Lemma raises_get_cached a : raises_within accepted_exn (get_cached a).
Proof. unfold get_cached. accepted. Qed.

Lemma raises_add_cached a k : raises_within accepted_exn (add_cached a k).
Proof.
  unfold add_cached. apply raises_bind; [apply raises_get_cached|].
  intros. apply raises_set_cached.
Qed.

Lemma raises_get_data a : raises_within accepted_exn (get_data a).
Proof. unfold get_data. accepted. Qed.

Lemma raises_set_data a xs : raises_within accepted_exn (set_data a xs).
Proof. unfold set_data. accepted. Qed.

Lemma raises_list_append a x : raises_within accepted_exn (list_append a x).
Proof.
  unfold list_append. apply raises_bind; [apply raises_get_data|].
  intros. apply raises_set_data.
Qed.

Lemma raises_list_extend a x : raises_within accepted_exn (list_extend a x).
Proof.
  unfold list_extend. apply raises_bind; [apply raises_py_iter|]. intros.
  apply raises_bind; [apply raises_get_data|]. intros. apply raises_set_data.
Qed.

Lemma raises_check_hashable a : raises_within accepted_exn (check_hashable a).
Proof. unfold check_hashable. accepted. Qed.

Lemma raises_set_items a : raises_within accepted_exn (set_items a).
Proof. unfold set_items. accepted. Qed.

Lemma raises_set_set_items a xs : raises_within accepted_exn (set_set_items a xs).
Proof. unfold set_set_items. accepted. Qed.

Lemma raises_set_add a e : raises_within accepted_exn (set_add a e).
Proof.
  unfold set_add. apply raises_bind; [apply raises_check_hashable|]. intros _.
  apply raises_bind; [apply raises_set_items|]. intros xs h x h' H.
  destruct (existsb _ xs); [discriminate|].
  eapply raises_set_set_items; eauto.
Qed.

Lemma raises_set_update a s : raises_within accepted_exn (set_update a s).
Proof.
  unfold set_update. apply raises_for_each. intros other.
  apply raises_bind; [apply raises_py_iter|]. intros ys.
  apply raises_for_each. intros. apply raises_set_add.
Qed.

Lemma raises_dict_entries a : raises_within accepted_exn (dict_entries a).
Proof. unfold dict_entries. accepted. Qed.

Lemma raises_set_dict_entries a es :
  raises_within accepted_exn (set_dict_entries a es).
Proof. unfold set_dict_entries. accepted. Qed.

Lemma raises_dict_setitem a k v : raises_within accepted_exn (dict_setitem a k v).
Proof.
  unfold dict_setitem. apply raises_bind; [apply raises_check_hashable|].
  intros _. apply raises_bind; [apply raises_dict_entries|]. intros es h x h' H.
  eapply raises_set_dict_entries; eauto.
Qed.

Lemma raises_dict_update a o : raises_within accepted_exn (dict_update a o).
Proof.
  unfold dict_update. apply raises_bind; [accepted|]. intros ob.
  destruct (as_mapping ob) as [es|].
  - apply raises_for_each. intros. apply raises_dict_setitem.
  - apply raises_bind; [apply raises_py_iter|]. intros elems.
    apply raises_for_each. intros e.
    apply raises_bind; [apply raises_py_iter|].
    intros [|k [|v [|]]]; try apply raises_dict_setitem;
      apply raises_raise; discriminate.
Qed.

Lemma raises_set_init d it : raises_within accepted_exn (safe_set.init d it).
Proof.
  unfold safe_set.init. apply raises_bind; [apply raises_alloc|]. intros self.
  apply raises_bind.
  { destruct it; [apply raises_set_update | apply raises_ret]. }
  intros _. apply raises_bind; [apply raises_size_of|]. intros n.
  apply raises_bind; [apply raises_set_cached|]. intros. apply raises_ret.
Qed.

(** ** A rejected call leaves the receiver as it was *)

Lemma clean_bind {A B} (m : M A) (k : A -> M B) :
  preserves m -> (forall x, clean_reject (k x)) -> clean_reject (bind m k).
Proof.
  intros Hm Hk h h' H. specialize (Hm h).
  apply bind_inv_raise in H as [H|(x & h1 & H1 & H)].
  - now rewrite H in Hm.
  - rewrite H1 in Hm. eapply stable_trans; [exact Hm | eapply Hk; eauto].
Qed.

Lemma clean_accepted {A} (m : M A) : raises_within accepted_exn m -> clean_reject m.
Proof. intros Hm h h' H. now destruct (Hm _ _ _ H). Qed.

Lemma clean_raise {A} e : clean_reject (@raise_in_context A e).
Proof. intros h h' [= _ <-]. apply stable_refl. Qed.

(** The check of every growing method: reject, or run a body that does
    not reject. *)
Lemma clean_check {A} (b : bool) (body : M A) :
  raises_within accepted_exn body ->
  clean_reject (if b then raise_in_context IterableTooLong else body).
Proof. destruct b; [intros _; apply clean_raise | apply clean_accepted]. Qed.

Lemma append_clean cfg d self obj : clean_reject (safe_list.append cfg d self obj).
Proof.
  unfold safe_list.append. apply clean_bind; [auto with pres|]. intros n.
  apply clean_check. apply raises_bind; [apply raises_list_append|].
  intros. apply raises_add_cached.
Qed.

Lemma extend_clean cfg d self it : clean_reject (safe_list.extend cfg d self it).
Proof.
  unfold safe_list.extend. apply clean_bind; [auto with pres|]. intros n1.
  apply clean_bind; [auto with pres|]. intros n.
  apply clean_check. apply raises_bind; [apply raises_list_extend|].
  intros. apply raises_add_cached.
Qed.

Lemma add_clean cfg d self e : clean_reject (safe_set.add cfg d self e).
Proof.
  unfold safe_set.add. apply clean_bind; [auto with pres|]. intros n.
  apply clean_check. apply raises_bind; [apply raises_set_add|].
  intros. apply raises_add_cached.
Qed.

Lemma set_update_clean cfg d self s : clean_reject (safe_set.update cfg d self s).
Proof.
  unfold safe_set.update. apply clean_bind; [auto with pres|]. intros n1.
  apply clean_bind; [auto with pres|]. intros n.
  apply clean_check. apply raises_bind; [apply raises_set_update|].
  intros. apply raises_add_cached.
Qed.

Lemma union_clean cfg d self s : clean_reject (safe_set.union cfg d self s).
Proof.
  unfold safe_set.union. apply clean_bind; [auto with pres|]. intros n.
  apply clean_bind; [auto with pres|]. intros n1.
  apply clean_check. apply raises_bind; [apply raises_set_items|]. intros xs.
  apply raises_bind; [apply raises_alloc|]. intros u.
  apply raises_bind; [apply raises_set_update|]. intros. apply raises_set_init.
Qed.

Lemma dict_update_clean cfg d self o kvs :
  clean_reject (safe_dict.update cfg d self o kvs).
Proof.
  unfold safe_dict.update. apply clean_bind; [auto with pres|]. intros kw.
  apply clean_bind; [destruct o; auto with pres|]. intros other.
  apply clean_bind; [auto with pres|]. intros n1.
  apply clean_bind; [auto with pres|]. intros n2.
  apply clean_bind; [auto with pres|]. intros n.
  apply clean_check. apply raises_bind; [apply raises_dict_update|]. intros.
  apply raises_bind; [apply raises_dict_update|]. intros.
  apply raises_add_cached.
Qed.

Lemma setitem_clean cfg d self k v : clean_reject (safe_dict.setitem cfg d self k v).
Proof.
  unfold safe_dict.setitem. apply clean_bind; [auto with pres|]. intros n1.
  apply clean_bind; [auto with pres|]. intros n.
  apply clean_check. apply raises_bind; [apply raises_add_cached|]. intros.
  apply raises_dict_setitem.
Qed.

Lemma clean_then_ret {A B} (m : M A) (f : A -> B) :
  clean_reject m -> clean_reject (let* x := m in ret (f x)).
Proof.
  intros Hm h h' H. apply bind_inv_raise in H as [H|(x & h1 & _ & H)].
  - eapply Hm; eauto.
  - discriminate.
Qed.

Lemma run_call_clean cfg d self c : clean_reject (run_call cfg d self c).
Proof.
  destruct c; simpl; apply clean_then_ret;
    auto using append_clean, extend_clean, add_clean, set_update_clean,
      union_clean, dict_update_clean, setitem_clean.
Qed.

(** A rejected union has built nothing: the store has the objects it had. *)
Lemma union_rejected_length cfg d self s h h' :
  safe_set.union cfg d self s h = Raise IterableTooLong h' -> length h' = length h.
Proof.
  unfold safe_set.union. intros H.
  pose proof (size_of_step d self h) as [L1 _].
  apply bind_inv_raise in H as [H|(n & h1 & H1 & H)].
  { now rewrite H in L1. }
  rewrite H1 in L1; simpl in L1.
  pose proof (sum_sizes_step d s h1) as [L2 _].
  apply bind_inv_raise in H as [H|(n1 & h2 & H2 & H)].
  { rewrite H in L2; simpl in L2. congruence. }
  rewrite H2 in L2; simpl in L2.
  destruct (n + n1 >? max_const_len cfg).
  - inversion H; subst. congruence.
  - exfalso. revert H.
    assert (Hr : raises_within accepted_exn
                   (let* xs := set_items self in
                    let* u := alloc (PySet xs) in
                    let* _ := set_update u s in safe_set.init d (Some u))).
    { apply raises_bind; [apply raises_set_items|]. intros xs.
      apply raises_bind; [apply raises_alloc|]. intros u.
      apply raises_bind; [apply raises_set_update|]. intros.
      apply raises_set_init. }
    intros H. now destruct (Hr _ _ _ H).
Qed.

(** C1. A growing call (append, extend, add, update, union, single-key
    assignment) on a bounded container that is rejected with the
    size-limit exception leaves the container exactly as it was before the
    call, contents and cached size: nothing was mutated in part.  A
    rejected union, moreover, has created no object, and an outcome that
    is an exception carries no result. *)
Theorem rejected_call_leaves_container_unchanged
  (cfg : config) (d : nat) (self : addr) (c : grow_call) (h h' : heap) (n : Z) :
  cached_size h self = Some n ->
  run_call cfg d self c h = Raise IterableTooLong h' ->
  h' !! self = h !! self /\
  cached_size h' self = Some n /\
  (in_place c = false -> length h' = length h).
Proof.
  intros Hc Hrun. pose proof (run_call_clean cfg d self c h h' Hrun) as Hs.
  split; [now apply (Hs self n)|]. split; [eapply stable_cached; eauto|].
  destruct c; try discriminate. intros _. simpl in Hrun.
  apply bind_inv_raise in Hrun as [H|(x & h1 & _ & H)]; [|discriminate].
  eapply union_rejected_length; eauto.
Qed.

(** ** Equations of the store primitives *)

Lemma lookup_new (h : heap) o : (h ++ [o]) !! length h = Some o.
Proof. now apply list_lookup_middle. Qed.

Lemma insert_new (h : heap) o o' : <[length h := o']> (h ++ [o]) = h ++ [o'].
Proof.
  replace (length h) with (length h + 0)%nat at 1 by lia.
  now rewrite insert_app_r.
Qed.

Lemma load_eq h a o : h !! a = Some o -> load a h = Ok o h.
Proof. unfold load. now intros ->. Qed.

Lemma attr_bounded o c : approx_len_attr o = Some c -> is_bounded o = true.
Proof. destruct o; simpl; congruence. Qed.

Lemma set_cached_eq h a o n :
  h !! a = Some o -> is_bounded o = true ->
  set_cached a n h = Ok tt (<[a := with_cached o n]> h).
Proof.
  intros Ha Hb. unfold set_cached. rewrite (bind_ok _ _ _ _ _ (load_eq _ _ _ Ha)).
  destruct o; try discriminate; reflexivity.
Qed.

Lemma get_cached_eq h a o c :
  h !! a = Some o -> approx_len_attr o = Some c -> get_cached a h = Ok c h.
Proof.
  intros Ha Hc. unfold get_cached.
  rewrite (bind_ok _ _ _ _ _ (load_eq _ _ _ Ha)). now rewrite Hc.
Qed.

Lemma add_cached_eq h a o c k :
  h !! a = Some o -> approx_len_attr o = Some c ->
  add_cached a k h = Ok tt (<[a := with_cached o (c + k)]> h).
Proof.
  intros Ha Hc. unfold add_cached.
  rewrite (bind_ok _ _ _ _ _ (get_cached_eq _ _ _ _ Ha Hc)).
  apply set_cached_eq; eauto using attr_bounded.
Qed.

Lemma get_data_eq h a xs c : h !! a = Some (SafeList xs c) -> get_data a h = Ok xs h.
Proof.
  intros Ha. unfold get_data. now rewrite (bind_ok _ _ _ _ _ (load_eq _ _ _ Ha)).
Qed.

Lemma set_data_eq h a xs c ys :
  h !! a = Some (SafeList xs c) ->
  set_data a ys h = Ok tt (<[a := SafeList ys c]> h).
Proof.
  intros Ha. unfold set_data. now rewrite (bind_ok _ _ _ _ _ (load_eq _ _ _ Ha)).
Qed.

Lemma list_append_eq h a xs c x :
  h !! a = Some (SafeList xs c) ->
  list_append a x h = Ok tt (<[a := SafeList (xs ++ [x]) c]> h).
Proof.
  intros Ha. unfold list_append.
  rewrite (bind_ok _ _ _ _ _ (get_data_eq _ _ _ _ Ha)).
  now apply set_data_eq with (xs := xs).
Qed.

Lemma cached_of_lookup h a o c :
  h !! a = Some o -> approx_len_attr o = Some c -> cached_size h a = Some c.
Proof. unfold cached_size. now intros ->. Qed.

(** One step of the estimator, with the calls of its loop named. *)
Lemma approx_len_of_eq d obj visited h :
  approx_len_of d obj visited h =
  match text_len h obj with
  | Some n => Ok (n, default [] visited) h
  | None =>
    match approx_attr h obj with
    | Some n => Ok (n, default [] visited) h
    | None =>
      match children h obj with
      | None =>
          (let* _ := memoize obj (length_hint h obj) in
           ret (length_hint h obj, default [obj] visited)) h
      | Some cs =>
          (let* '(size', visited') :=
             visit_children (nested_call d) (contains d) cs
               (length_hint h obj) (default [obj] visited) in
           let* _ := memoize obj size' in
           ret (size', visited')) h
      end
    end
  end.
Proof. destruct d; reflexivity. Qed.

(** ** The bounded sequence *)

(** Construction of an empty bounded sequence. *)
Lemma init_empty d h :
  safe_list.init d None h = Ok (length h) (h ++ [SafeList [] (Some 0)]).
Proof.
  unfold safe_list.init. unfold bind at 1. unfold alloc.
  unfold bind at 1. unfold ret at 1.
  pose proof (lookup_new h (SafeList [] None)) as Hn.
  rewrite (bind_ok _ _ _ _ _ (set_data_eq _ _ _ _ [] Hn)).
  rewrite insert_new.
  pose proof (lookup_new h (SafeList [] None)) as Hn'.
  assert (Hs : size_of d (length h) (h ++ [SafeList [] None])
               = Ok 0 (h ++ [SafeList [] (Some 0)])).
  { unfold size_of, bind at 1. rewrite approx_len_of_eq.
    unfold text_len, approx_attr, cached_size, children, length_hint.
    rewrite Hn'. cbn [as_text option_map approx_len_attr map visit_children length].
    unfold bind, ret, memoize. rewrite Hn', insert_new. reflexivity. }
  rewrite (bind_ok _ _ _ _ _ Hs).
  pose proof (lookup_new h (SafeList [] (Some 0))) as Hn2.
  rewrite (bind_ok _ _ _ _ _ (set_cached_eq _ _ _ 0 Hn2 eq_refl)).
  simpl. now rewrite insert_new.
Qed.

(** [append] on a constructed sequence: the check reads the cached size,
    the element goes to the end and the cached size goes up by one. *)
Lemma append_eq cfg d h self xs c obj :
  h !! self = Some (SafeList xs (Some c)) ->
  safe_list.append cfg d self obj h =
  if c + 1 >? max_const_len cfg then Raise IterableTooLong h
  else Ok tt (<[self := SafeList (xs ++ [obj]) (Some (c + 1))]> h).
Proof.
  intros Hs. unfold safe_list.append.
  rewrite (bind_ok _ _ _ _ _ (size_of_cached d h self c (cached_of_lookup _ _ _ _ Hs eq_refl))).
  destruct (c + 1 >? max_const_len cfg); [reflexivity|].
  rewrite (bind_ok _ _ _ _ _ (list_append_eq _ _ _ _ obj Hs)).
  assert (Hl : (self < length h)%nat) by (eapply lookup_lt_Some; eauto).
  erewrite add_cached_eq;
    [| now apply list_lookup_insert_eq | reflexivity].
  simpl. now rewrite list_insert_insert_eq.
Qed.

(** [__mul__] builds the new sequence without estimating anything but the
    empty list it starts from. *)
Lemma mul_eq d h self xs c k :
  h !! self = Some (SafeList xs (Some c)) ->
  safe_list.mul d self k h =
  Ok (length h) (h ++ [SafeList (list_repeat xs k) (Some (c * k))]).
Proof.
  intros Hs. unfold safe_list.mul.
  rewrite (bind_ok _ _ _ _ _ (init_empty d h)).
  assert (Hs' : (h ++ [SafeList [] (Some 0)]) !! self = Some (SafeList xs (Some c))).
  { now apply lookup_app_l_Some. }
  rewrite (bind_ok _ _ _ _ _ (get_data_eq _ _ _ _ Hs')).
  pose proof (lookup_new h (SafeList [] (Some 0))) as Hn.
  rewrite (bind_ok _ _ _ _ _ (set_data_eq _ _ _ _ (list_repeat xs k) Hn)).
  rewrite insert_new.
  assert (Hs2 : (h ++ [SafeList (list_repeat xs k) (Some 0)]) !! self
                = Some (SafeList xs (Some c))).
  { now apply lookup_app_l_Some. }
  rewrite (bind_ok _ _ _ _ _ (get_cached_eq _ _ _ _ Hs2 eq_refl)).
  pose proof (lookup_new h (SafeList (list_repeat xs k) (Some 0))) as Hn2.
  rewrite (bind_ok _ _ _ _ _ (set_cached_eq _ _ _ (c * k) Hn2 eq_refl)).
  simpl. now rewrite insert_new.
Qed.

(** The native repetition: nothing for a count that is not positive, one
    more copy for each unit. *)
Lemma list_repeat_nonpos xs k : k <= 0 -> list_repeat xs k = [].
Proof. intros Hk. unfold list_repeat. replace (Z.to_nat k) with O by lia. reflexivity. Qed.

Lemma list_repeat_succ xs k :
  0 <= k -> list_repeat xs (k + 1) = xs ++ list_repeat xs k.
Proof.
  intros Hk. unfold list_repeat.
  replace (Z.to_nat (k + 1)) with (S (Z.to_nat k)) by lia. reflexivity.
Qed.

Lemma list_repeat_length xs k :
  Z.of_nat (length (list_repeat xs k)) = Z.of_nat (length xs) * Z.max 0 k.
Proof.
  unfold list_repeat.
  assert (Hn : forall n, length (mjoin (replicate n xs)) = (n * length xs)%nat).
  { induction n as [|n IH]; simpl; [reflexivity|]. rewrite length_app. lia. }
  rewrite Hn, Nat2Z.inj_mul.
  destruct (Z.le_gt_cases 0 k).
  - rewrite Z2Nat.id, Z.max_r by lia. ring.
  - replace (Z.to_nat k) with O by lia. rewrite Z.max_l by lia. simpl. ring.
Qed.

Lemma append_fresh cfg d (h : heap) xs c obj :
  safe_list.append cfg d (length h) obj (h ++ [SafeList xs (Some c)]) =
  if c + 1 >? max_const_len cfg
  then Raise IterableTooLong (h ++ [SafeList xs (Some c)])
  else Ok tt (h ++ [SafeList (xs ++ [obj]) (Some (c + 1))]).
Proof.
  rewrite (append_eq cfg d _ _ xs c obj (lookup_new h _)).
  now rewrite insert_new.
Qed.

(** C10. With ceiling 5 and an initially empty bounded sequence, five
    appends in a row each succeed and the sixth raises the size-limit
    exception, the sequence keeping its five elements.  (The appended
    objects and the store the sequence is created in are arbitrary.) *)
Theorem five_appends_then_rejection
  (d : nat) (h : heap) (o1 o2 o3 o4 o5 o6 : addr) :
  let cfg := ceiling 5 in
  let l := length h in
  let st := fun xs c => h ++ [SafeList xs (Some c)] in
  safe_list.init d None h = Ok l (st [] 0) /\
  safe_list.append cfg d l o1 (st [] 0) = Ok tt (st [o1] 1) /\
  safe_list.append cfg d l o2 (st [o1] 1) = Ok tt (st [o1; o2] 2) /\
  safe_list.append cfg d l o3 (st [o1; o2] 2) = Ok tt (st [o1; o2; o3] 3) /\
  safe_list.append cfg d l o4 (st [o1; o2; o3] 3) = Ok tt (st [o1; o2; o3; o4] 4) /\
  safe_list.append cfg d l o5 (st [o1; o2; o3; o4] 4)
    = Ok tt (st [o1; o2; o3; o4; o5] 5) /\
  safe_list.append cfg d l o6 (st [o1; o2; o3; o4; o5] 5)
    = Raise IterableTooLong (st [o1; o2; o3; o4; o5] 5) /\
  get_data l (st [o1; o2; o3; o4; o5] 5) = Ok [o1; o2; o3; o4; o5] (st [o1; o2; o3; o4; o5] 5) /\
  length [o1; o2; o3; o4; o5] = 5%nat.
Proof.
  intros cfg l st. unfold st, l.
  split; [apply init_empty|].
  repeat (split; [rewrite append_fresh; reflexivity|]).
  split; [|reflexivity].
  eapply get_data_eq, lookup_new.
Qed.


(** C9. For bounded text, [encode], [format] and [format_map] raise the
    feature-disallowed exception for every receiver, every argument list
    and every store; none of them consults the ceiling (the embedded
    methods do not even take the limit policy), none returns a value, and
    the store is left as it was. *)
Theorem text_conversions_disallowed
  (self : addr) (args : list addr) (kwargs : list (string * addr))
  (mapping : addr) (h : heap) :
  safe_str.encode self args kwargs h = Raise FeatureNotAvailable h /\
  safe_str.format self args kwargs h = Raise FeatureNotAvailable h /\
  safe_str.format_map self mapping h = Raise FeatureNotAvailable h.
Proof. repeat split. Qed.

(** ** Single-key assignment of the bounded mapping *)

Lemma replace_value_present h es k v old :
  dict_lookup h es k = Some old ->
  length (replace_value h es k v) = length es.
Proof.
  induction es as [|[k' v'] es IH]; simpl; [discriminate|].
  destruct (key_eq h k' k); simpl; [reflexivity|]. intros H. now rewrite IH.
Qed.

Lemma replace_value_lookup h es k v :
  dict_lookup h (replace_value h es k v) k = Some v.
Proof.
  induction es as [|[k' v'] es IH]; simpl.
  - unfold key_eq. now rewrite Nat.eqb_refl.
  - destruct (key_eq h k' k) eqn:E; simpl; now rewrite E.
Qed.

Lemma check_hashable_eq h a o :
  h !! a = Some o -> hashable o = true -> check_hashable a h = Ok tt h.
Proof.
  intros Ha Hh. unfold check_hashable.
  rewrite (bind_ok _ _ _ _ _ (load_eq _ _ _ Ha)). now rewrite Hh.
Qed.

Lemma dict_entries_eq h a o es :
  h !! a = Some o -> as_mapping o = Some es -> dict_entries a h = Ok es h.
Proof.
  intros Ha Hm. unfold dict_entries.
  rewrite (bind_ok _ _ _ _ _ (load_eq _ _ _ Ha)). now rewrite Hm.
Qed.

Lemma dict_setitem_eq h self es c k v o :
  h !! self = Some (SafeDict es c) ->
  h !! k = Some o -> hashable o = true ->
  dict_setitem self k v h =
  Ok tt (<[self := SafeDict (replace_value h es k v) c]> h).
Proof.
  intros Hs Hk Hh. unfold dict_setitem.
  rewrite (bind_ok _ _ _ _ _ (check_hashable_eq _ _ _ Hk Hh)).
  rewrite (bind_ok _ _ _ _ _ (dict_entries_eq _ _ _ es Hs eq_refl)).
  unfold set_dict_entries.
  now rewrite (bind_ok _ _ _ _ _ (load_eq _ _ _ Hs)).
Qed.

(** C8. Single-key assignment on a bounded mapping takes as delta the
    estimated size [n] of the new value alone; the sum of the cached size
    and [n] is checked against the ceiling before anything is mutated; and
    an accepted assignment raises the cached size by [n] whether or not
    the key was present: on overwrite the entry count stays and nothing is
    subtracted for the replaced value. *)
Theorem setitem_delta_is_new_value
  (cfg : config) (d : nat) (h h1 : heap) (self key val : addr)
  (es : list (addr * addr)) (c n : Z) (vis : list value) :
  h !! self = Some (SafeDict es (Some c)) ->
  approx_len_of d (Ref val) None h = Ok (n, vis) h1 ->
  let h2 := <[self := SafeDict es (Some (c + n))]> h1 in
  let es' := replace_value h2 es key val in
  h1 !! self = Some (SafeDict es (Some c)) /\
  (c + n > max_const_len cfg ->
   safe_dict.setitem cfg d self key val h = Raise IterableTooLong h1) /\
  (c + n <= max_const_len cfg ->
   forall o, h1 !! key = Some o -> hashable o = true ->
     safe_dict.setitem cfg d self key val h
     = Ok tt (<[self := SafeDict es' (Some (c + n))]> h2) /\
     dict_lookup h2 es' key = Some val /\
     (forall old, dict_lookup h2 es key = Some old -> length es' = length es)).
Proof.
  intros Hs Hest h2 es'.
  pose proof (approx_len_of_preserves d (Ref val) None h) as Hst.
  rewrite Hest in Hst. simpl in Hst.
  assert (Hs1 : h1 !! self = Some (SafeDict es (Some c))).
  { rewrite <- Hs. apply (Hst self c). now apply (cached_of_lookup _ _ _ _ Hs). }
  assert (Hlt : (self < length h1)%nat) by (eapply lookup_lt_Some; eauto).
  assert (Hrun : safe_dict.setitem cfg d self key val h =
                 (if c + n >? max_const_len cfg
                  then raise_in_context IterableTooLong
                  else let* _ := add_cached self n in
                       dict_setitem self key val) h1).
  { unfold safe_dict.setitem, size_of.
    unfold bind at 1. unfold bind at 1. rewrite Hest. unfold ret at 1.
    unfold bind at 1. unfold bind at 1.
    rewrite (approx_len_of_cached d h1 self c None
               (cached_of_lookup _ _ _ _ Hs1 eq_refl)).
    reflexivity. }
  split; [exact Hs1|]. split.
  - intros Hgt. rewrite Hrun.
    destruct (Z.gtb_spec (c + n) (max_const_len cfg)); [reflexivity | lia].
  - intros Hle o Hk Hh. rewrite Hrun.
    destruct (Z.gtb_spec (c + n) (max_const_len cfg)); [lia|].
    rewrite (bind_ok _ _ _ _ _ (add_cached_eq _ _ _ _ n Hs1 eq_refl)).
    simpl with_cached. fold h2.
    assert (Hs2 : h2 !! self = Some (SafeDict es (Some (c + n)))).
    { unfold h2. now apply list_lookup_insert_eq. }
    assert (Hk2 : exists o', h2 !! key = Some o' /\ hashable o' = true).
    { unfold h2. destruct (Nat.eq_dec self key) as [->|Hne].
      - rewrite Hs1 in Hk. inversion Hk; subst. discriminate.
      - exists o. now rewrite list_lookup_insert_ne. }
    destruct Hk2 as (o' & Hk2 & Hh2).
    rewrite (dict_setitem_eq _ _ _ _ _ val _ Hs2 Hk2 Hh2).
    split; [reflexivity|]. split; [apply replace_value_lookup|].
    intros old. apply replace_value_present.
Qed.

(** ** Native mutations keep every cached size *)

Lemma cache_kept_refl h : cache_kept h h.
Proof. now intros a c. Qed.

Lemma cache_kept_trans h1 h2 h3 :
  cache_kept h1 h2 -> cache_kept h2 h3 -> cache_kept h1 h3.
Proof. intros H12 H23 a c Hc. eauto. Qed.

Lemma stable_cache_kept h h' : stable h h' -> cache_kept h h'.
Proof. intros Hs a c Hc. eapply stable_cached; eauto. Qed.

Lemma cache_kept_insert h a o o' :
  h !! a = Some o -> approx_len_attr o' = approx_len_attr o ->
  cache_kept h (<[a := o']> h).
Proof.
  intros Ha Hattr x c. unfold cached_size.
  destruct (Nat.eq_dec a x) as [<-|Hne].
  - rewrite list_lookup_insert_eq by (eapply lookup_lt_Some; eauto).
    rewrite Ha. congruence.
  - now rewrite list_lookup_insert_ne.
Qed.

Lemma kept_bind {A B} (m : M A) (k : A -> M B) :
  kept m -> (forall x, kept (k x)) -> kept (bind m k).
Proof. apply keeps_bind, cache_kept_trans. Qed.

Lemma kept_preserves {A} (m : M A) : preserves m -> kept m.
Proof. apply keeps_weaken, stable_cache_kept. Qed.

Lemma kept_ret {A} (x : A) : kept (ret x).
Proof. apply keeps_ret, cache_kept_refl. Qed.

Lemma kept_raise {A} e : kept (@raise A e).
Proof. apply keeps_raise, cache_kept_refl. Qed.

Lemma kept_for_each {A} (f : A -> M unit) l :
  (forall x, kept (f x)) -> kept (for_each f l).
Proof.
  intros Hf. induction l as [|x l IH]; simpl; [apply kept_ret|].
  apply kept_bind; auto.
Qed.

Lemma kept_set_data a xs : kept (set_data a xs).
Proof.
  intros h. unfold set_data, bind, load, store.
  destruct (h !! a) as [o|] eqn:E; simpl; [|apply cache_kept_refl].
  destruct o; simpl; try apply cache_kept_refl.
  eapply cache_kept_insert; eauto.
Qed.

Lemma kept_set_set_items a xs : kept (set_set_items a xs).
Proof.
  intros h. unfold set_set_items, bind, load, store.
  destruct (h !! a) as [o|] eqn:E; simpl; [|apply cache_kept_refl].
  destruct o; simpl; try apply cache_kept_refl;
    eapply cache_kept_insert; eauto.
Qed.

Lemma kept_set_dict_entries a es : kept (set_dict_entries a es).
Proof.
  intros h. unfold set_dict_entries, bind, load, store.
  destruct (h !! a) as [o|] eqn:E; simpl; [|apply cache_kept_refl].
  destruct o; simpl; try apply cache_kept_refl;
    eapply cache_kept_insert; eauto.
Qed.

Lemma kept_get_data a : kept (get_data a).
Proof.
  unfold get_data. apply kept_bind; [apply kept_preserves, preserves_load|].
  intros []; auto using kept_ret, kept_raise.
Qed.

Lemma kept_check_hashable a : kept (check_hashable a).
Proof.
  unfold check_hashable. apply kept_bind; [apply kept_preserves, preserves_load|].
  intros o. destruct (hashable o); auto using kept_ret, kept_raise.
Qed.

Lemma kept_set_items a : kept (set_items a).
Proof.
  unfold set_items. apply kept_bind; [apply kept_preserves, preserves_load|].
  intros o. destruct (as_set o); auto using kept_ret, kept_raise.
Qed.

Lemma kept_dict_entries a : kept (dict_entries a).
Proof.
  unfold dict_entries. apply kept_bind; [apply kept_preserves, preserves_load|].
  intros o. destruct (as_mapping o); auto using kept_ret, kept_raise.
Qed.

Lemma kept_list_append a x : kept (list_append a x).
Proof.
  unfold list_append. apply kept_bind; [apply kept_get_data|].
  intros. apply kept_set_data.
Qed.

Lemma kept_list_extend a x : kept (list_extend a x).
Proof.
  unfold list_extend.
  apply kept_bind; [apply kept_preserves, preserves_py_iter|]. intros.
  apply kept_bind; [apply kept_get_data|]. intros. apply kept_set_data.
Qed.

Lemma kept_set_add a e : kept (set_add a e).
Proof.
  unfold set_add. apply kept_bind; [apply kept_check_hashable|]. intros _.
  apply kept_bind; [apply kept_set_items|]. intros xs h.
  destruct (existsb _ xs); [apply cache_kept_refl | apply kept_set_set_items].
Qed.

Lemma kept_set_update a s : kept (set_update a s).
Proof.
  unfold set_update. apply kept_for_each. intros other.
  apply kept_bind; [apply kept_preserves, preserves_py_iter|]. intros ys.
  apply kept_for_each. intros. apply kept_set_add.
Qed.

Lemma kept_dict_setitem a k v : kept (dict_setitem a k v).
Proof.
  unfold dict_setitem. apply kept_bind; [apply kept_check_hashable|]. intros _.
  apply kept_bind; [apply kept_dict_entries|]. intros es h.
  apply kept_set_dict_entries.
Qed.

Lemma kept_dict_update a o : kept (dict_update a o).
Proof.
  unfold dict_update. apply kept_bind; [apply kept_preserves, preserves_load|].
  intros ob. destruct (as_mapping ob) as [es|].
  - apply kept_for_each. intros. apply kept_dict_setitem.
  - apply kept_bind; [apply kept_preserves, preserves_py_iter|]. intros elems.
    apply kept_for_each. intros e.
    apply kept_bind; [apply kept_preserves, preserves_py_iter|].
    intros [|k [|v [|]]]; try apply kept_dict_setitem; apply kept_raise.
Qed.

(** ** An accepted in-place call ends with the cached size within the
    ceiling *)

Lemma add_cached_result h r cr k v h' :
  cached_size h r = Some cr ->
  add_cached r k h = Ok v h' -> cached_size h' r = Some (cr + k).
Proof.
  unfold cached_size. destruct (h !! r) as [o|] eqn:E; [|discriminate].
  intros Hc. rewrite (add_cached_eq _ _ _ _ k E Hc). intros [= _ <-].
  rewrite list_lookup_insert_eq by (eapply lookup_lt_Some; eauto).
  destruct o; simpl in *; congruence.
Qed.

Lemma grow_then_count {A} (native : M A) r k h cr v h' :
  kept native -> cached_size h r = Some cr ->
  (let* _ := native in add_cached r k) h = Ok v h' ->
  cached_size h' r = Some (cr + k).
Proof.
  intros Hn Hc H. apply bind_inv_ok in H as (x & h1 & H1 & H).
  specialize (Hn h). rewrite H1 in Hn.
  eapply add_cached_result; [|exact H]. now apply Hn.
Qed.

Lemma count_then_grow {A} (native : M A) r k h cr v h' :
  kept native -> cached_size h r = Some cr ->
  (let* _ := add_cached r k in native) h = Ok v h' ->
  cached_size h' r = Some (cr + k).
Proof.
  intros Hn Hc H. apply bind_inv_ok in H as (x & h1 & H1 & H).
  specialize (Hn h1). rewrite H in Hn. apply Hn.
  eapply add_cached_result; eauto.
Qed.

(** Inversion of an estimate that precedes the check. *)
Lemma estimate_inv {A B} (m : M A) (k : A -> M B) h v h' r cr :
  preserves m -> cached_size h r = Some cr ->
  bind m k h = Ok v h' ->
  exists x h1, cached_size h1 r = Some cr /\ k x h1 = Ok v h'.
Proof.
  intros Hm Hc H. apply bind_inv_ok in H as (x & h1 & H1 & H).
  specialize (Hm h). rewrite H1 in Hm.
  exists x, h1. split; [eapply stable_cached; eauto | exact H].
Qed.

Lemma self_estimate_inv {B} d (k : Z -> M B) h v h' r cr :
  cached_size h r = Some cr ->
  bind (size_of d r) k h = Ok v h' -> k cr h = Ok v h'.
Proof. intros Hc. now rewrite (bind_ok _ _ _ _ _ (size_of_cached d h r cr Hc)). Qed.

Lemma check_inv {A} (n k limit : Z) (body : M A) h v h' :
  (if n + k >? limit then raise_in_context IterableTooLong else body) h = Ok v h' ->
  n + k <= limit /\ body h = Ok v h'.
Proof. destruct (Z.gtb_spec (n + k) limit); [discriminate | split; [lia | assumption]]. Qed.

Lemma accepted_within_ceiling cfg d r cr call v h h' :
  cached_size h r = Some cr -> in_place call = true ->
  run_call cfg d r call h = Ok v h' ->
  exists c', cached_size h' r = Some c' /\ c' <= max_const_len cfg.
Proof.
  intros Hc Hin Hrun. destruct call; try discriminate; simpl in Hrun;
    apply bind_inv_ok in Hrun as ([] & h1 & Hrun & [= _ <-]).
  - unfold safe_list.append in Hrun.
    apply (self_estimate_inv _ _ _ _ _ _ _ Hc), check_inv in Hrun as [Hle Hrun].
    eexists; split; [|exact Hle].
    eapply grow_then_count; [apply kept_list_append | exact Hc | exact Hrun].
  - unfold safe_list.extend in Hrun.
    eapply estimate_inv in Hrun as (n1 & h2 & Hc2 & Hrun);
      [|apply preserves_size_of | exact Hc].
    apply (self_estimate_inv _ _ _ _ _ _ _ Hc2), check_inv in Hrun as [Hle Hrun].
    eexists; split; [|exact Hle].
    eapply grow_then_count; [apply kept_list_extend | exact Hc2 | exact Hrun].
  - unfold safe_set.add in Hrun.
    apply (self_estimate_inv _ _ _ _ _ _ _ Hc), check_inv in Hrun as [Hle Hrun].
    eexists; split; [|exact Hle].
    eapply grow_then_count; [apply kept_set_add | exact Hc | exact Hrun].
  - unfold safe_set.update in Hrun.
    eapply estimate_inv in Hrun as (n1 & h2 & Hc2 & Hrun);
      [|apply preserves_sum_sizes | exact Hc].
    apply (self_estimate_inv _ _ _ _ _ _ _ Hc2), check_inv in Hrun as [Hle Hrun].
    eexists; split; [|exact Hle].
    eapply grow_then_count; [apply kept_set_update | exact Hc2 | exact Hrun].
  - unfold safe_dict.update in Hrun.
    eapply estimate_inv in Hrun as (kw & h2 & Hc2 & Hrun);
      [|apply preserves_make_kwargs | exact Hc].
    eapply estimate_inv in Hrun as (other & h3 & Hc3 & Hrun);
      [|destruct other_dict; auto with pres | exact Hc2].
    eapply estimate_inv in Hrun as (n1 & h4 & Hc4 & Hrun);
      [|apply preserves_size_of | exact Hc3].
    eapply estimate_inv in Hrun as (n2 & h5 & Hc5 & Hrun);
      [|apply preserves_size_of | exact Hc4].
    apply (self_estimate_inv _ _ _ _ _ _ _ Hc5), check_inv in Hrun as [Hle Hrun].
    eexists; split; [|exact Hle].
    apply bind_inv_ok in Hrun as ([] & h6 & H6 & Hrun).
    pose proof (kept_dict_update r other h5) as Hk. rewrite H6 in Hk.
    eapply grow_then_count; [apply kept_dict_update | now apply Hk | exact Hrun].
  - unfold safe_dict.setitem in Hrun.
    eapply estimate_inv in Hrun as (n1 & h2 & Hc2 & Hrun);
      [|apply preserves_size_of | exact Hc].
    apply (self_estimate_inv _ _ _ _ _ _ _ Hc2), check_inv in Hrun as [Hle Hrun].
    eexists; split; [|exact Hle].
    eapply count_then_grow; [apply kept_dict_setitem | exact Hc2 | exact Hrun].
Qed.



(** ** Joining with bounded text *)

Lemma get_text_eq h a o s :
  h !! a = Some o -> as_text o = Some s -> safe_str.get_text a h = Ok s h.
Proof.
  intros Ha Hs. unfold safe_str.get_text.
  rewrite (bind_ok _ _ _ _ _ (load_eq _ _ _ Ha)). now rewrite Hs.
Qed.



(** The same call is accepted from ceiling 12 on. *)
Lemma join_scenario_accepted_at_12 :
  exists new h',
    safe_str.join (ceiling 12) recursion_limit 0 4 h_join = Ok new h' /\
    h' !! new = Some (PyStr "xabyabz").
Proof. eexists _, _. split; vm_compute; reflexivity. Qed.

(** ** Cycles *)

Lemma mutual_lists_incomparable d :
  py_eq d h_mutual (Ref 0%nat) (Ref 1%nat) = Err RecursionError /\
  py_eq d h_mutual (Ref 1%nat) (Ref 0%nat) = Err RecursionError.
Proof.
  induction d as [|d [IH1 IH2]]; [split; reflexivity|].
  split; simpl; unfold seq_eq; simpl; [now rewrite IH2 | now rewrite IH1].
Qed.

(** C3, the failing input: two lists that contain each other.  Whatever
    recursion budget the interpreter has left, the estimator does not
    return: the membership test [child in visited] compares the two lists
    with [==], which recurses through the cycle until [RecursionError]. *)
Theorem mutual_cycle_raises (d : nat) :
  approx_len_of d (Ref 0%nat) None h_mutual = Raise RecursionError h_mutual.
Proof.
  rewrite approx_len_of_eq. simpl.
  unfold bind at 1. unfold bind at 1. unfold contains, lift.
  simpl. destruct (mutual_lists_incomparable d) as [-> _]. reflexivity.
Qed.

(** A list that directly contains itself is sized at 1: the root is in
    [visited] from the start, and identical objects compare equal without
    any recursion. *)
Lemma self_cycle_size (d : nat) :
  approx_len_of d (Ref 0%nat) None h_self = Ok (1, [Ref 0%nat]) h_self.
Proof. destruct d; reflexivity. Qed.

(** ** Which children the estimator skips *)

Lemma py_eq_identical d h x y : value_is x y = true -> py_eq d h x y = Val true.
Proof. intros H. destruct d; simpl; now rewrite H. Qed.

Lemma py_eq_true d h x y :
  py_eq d h x y = Val true <->
  value_is x y = true \/
  exists d', d = S d' /\ rich_eq (py_eq d' h) h x y = Val true.
Proof.
  split.
  - destruct d as [|d']; simpl; destruct (value_is x y); auto; [discriminate|].
    intros H. right. eauto.
  - intros [H|(d' & -> & H)]; [now apply py_eq_identical|].
    simpl. now destruct (value_is x y).
Qed.

Lemma py_contains_true d h vis child :
  py_contains d h vis child = Val true <->
  exists l1 y l2,
    vis = l1 ++ y :: l2 /\
    Forall (fun z => py_eq d h z child = Val false) l1 /\
    py_eq d h y child = Val true.
Proof.
  split.
  - induction vis as [|y vis IH]; simpl; [discriminate|].
    destruct (py_eq d h y child) as [[|]|e] eqn:E; try discriminate.
    + intros _. exists [], y, vis. auto.
    + intros H. destruct (IH H) as (l1 & y' & l2 & -> & Hl1 & Hy).
      exists (y :: l1), y', l2. auto.
  - intros (l1 & y & l2 & -> & Hl1 & Hy).
    induction Hl1 as [|z l1 Hz _ IH]; simpl; [now rewrite Hy|].
    now rewrite Hz.
Qed.



(** One object reached twice contributes once, under either reading. *)
Lemma shared_child_counted_once :
  size_of recursion_limit 0 h_shared = Ok 4 h_shared /\
  result_of (approx_len_of_by_identity recursion_limit (Ref 0%nat) None h_shared)
  = Val (4, [Ref 0; Ref 3; Ref 4; Ref 1]%nat).
Proof. split; vm_compute; reflexivity. Qed.

(** ** Cached size and full traversal *)

(** Comparing anything with an int gives an answer as soon as one
    comparison level is left. *)
Lemma py_eq_with_int d h v x :
  (1 <= d)%nat -> is_int h x -> exists b, py_eq d h v (Ref x) = Val b.
Proof.
  intros Hd [z Hx]. destruct d as [|d']; [lia|]. simpl.
  destruct (value_is v (Ref x)); [eauto|].
  unfold rich_eq. destruct v as [a|k w]; [|eauto].
  destruct (h !! a) as [o|]; [|eauto]. rewrite Hx.
  destruct o; simpl; eauto.
Qed.

Lemma py_contains_int d h vis x :
  (1 <= d)%nat -> is_int h x -> exists b, py_contains d h vis (Ref x) = Val b.
Proof.
  intros Hd Hx. induction vis as [|v vis [b IH]]; simpl; [eauto|].
  destruct (py_eq_with_int d h v x Hd Hx) as [[|] ->]; eauto.
Qed.

(** An int is estimated at 0 and leaves nothing behind. *)
Lemma approx_len_of_int d h x vis :
  is_int h x -> approx_len_of d (Ref x) (Some vis) h = Ok (0, vis) h.
Proof.
  intros [z Hx]. rewrite approx_len_of_eq.
  unfold text_len, approx_attr, cached_size, children, length_hint.
  rewrite Hx. simpl. unfold bind, memoize. now rewrite Hx.
Qed.

Lemma visit_ints d h cs :
  (1 <= d)%nat -> Forall (is_int h) cs ->
  forall size vis,
    exists vis',
      visit_children (nested_call d) (contains d) (map Ref cs) size vis h
      = Ok (size, vis') h.
Proof.
  intros Hd Hcs. induction Hcs as [|x cs Hx _ IH]; intros size vis; simpl.
  - eauto.
  - unfold bind at 1, contains at 1, lift.
    destruct (py_contains_int d h vis x Hd Hx) as [[|] ->]; [apply IH|].
    unfold bind at 1. destruct d as [|d']; [lia|]. simpl nested_call.
    rewrite approx_len_of_int by assumption.
    replace (size + 0) with size by lia. apply IH.
Qed.

(** The estimate of a native list of ints is its length. *)
Lemma size_of_int_list d h it ys :
  (1 <= d)%nat -> h !! it = Some (PyList ys) -> Forall (is_int h) ys ->
  size_of d it h = Ok (Z.of_nat (length ys)) h.
Proof.
  intros Hd Hit Hys. unfold size_of. unfold bind at 1.
  rewrite approx_len_of_eq.
  unfold text_len, approx_attr, cached_size, children, length_hint.
  rewrite Hit. cbn [as_text option_map approx_len_attr].
  destruct (visit_ints d h ys Hd Hys (Z.of_nat (length ys)) (default [Ref it] None))
    as [vis' Hv].
  unfold bind at 1. rewrite Hv. unfold bind, memoize. now rewrite Hit.
Qed.

Lemma is_int_insert h a x o o' :
  h !! a = Some o -> (forall z, o <> PyInt z) ->
  is_int h x -> is_int (<[a := o']> h) x.
Proof.
  intros Ha Ho [z Hx]. exists z. rewrite list_lookup_insert_ne; [assumption|].
  intros ->. rewrite Ha in Hx. inversion Hx; subst. now apply (Ho z).
Qed.

(** A full traversal of a bounded sequence of ints counts its elements. *)
Lemma traversal_ints d h self xs c :
  (1 <= d)%nat -> h !! self = Some (SafeList xs c) -> Forall (is_int h) xs ->
  traversal_size d self h = Val (Z.of_nat (length xs)).
Proof.
  intros Hd Hs Hxs. unfold traversal_size, forget_cached. rewrite Hs. simpl.
  set (h0 := <[self := SafeList xs None]> h).
  assert (Hs0 : h0 !! self = Some (SafeList xs None)).
  { unfold h0. apply list_lookup_insert_eq. eapply lookup_lt_Some; eauto. }
  assert (Hxs0 : Forall (is_int h0) xs).
  { eapply Forall_impl; [exact Hxs|]. intros x Hx.
    eapply is_int_insert; eauto; discriminate. }
  unfold size_of. unfold bind at 1. rewrite approx_len_of_eq.
  unfold text_len, approx_attr, cached_size, children, length_hint.
  rewrite Hs0. cbn [as_text option_map approx_len_attr].
  destruct (visit_ints d h0 xs Hd Hxs0 (Z.of_nat (length xs)) (default [Ref self] None))
    as [vis' Hv].
  unfold bind at 1. rewrite Hv. unfold bind, memoize. now rewrite Hs0.
Qed.

Lemma py_iter_list h it ys : h !! it = Some (PyList ys) -> py_iter it h = Ok ys h.
Proof.
  intros Hit. unfold py_iter. now rewrite (bind_ok _ _ _ _ _ (load_eq _ _ _ Hit)).
Qed.

(** [extend] on a constructed sequence, for an argument whose estimate and
    iteration leave the store as it is. *)
Lemma extend_eq cfg d h self xs c it n ys :
  h !! self = Some (SafeList xs (Some c)) ->
  size_of d it h = Ok n h -> py_iter it h = Ok ys h ->
  safe_list.extend cfg d self it h =
  if c + n >? max_const_len cfg then Raise IterableTooLong h
  else Ok tt (<[self := SafeList (xs ++ ys) (Some (c + n))]> h).
Proof.
  intros Hs Hn Hys. unfold safe_list.extend.
  rewrite (bind_ok _ _ _ _ _ Hn).
  rewrite (bind_ok _ _ _ _ _
             (size_of_cached d h self c (cached_of_lookup _ _ _ _ Hs eq_refl))).
  destruct (c + n >? max_const_len cfg); [reflexivity|].
  assert (Hext : list_extend self it h = Ok tt (<[self := SafeList (xs ++ ys) (Some c)]> h)).
  { unfold list_extend. rewrite (bind_ok _ _ _ _ _ Hys).
    rewrite (bind_ok _ _ _ _ _ (get_data_eq _ _ _ _ Hs)).
    now apply set_data_eq with (xs := xs). }
  rewrite (bind_ok _ _ _ _ _ Hext).
  assert (Hl : (self < length h)%nat) by (eapply lookup_lt_Some; eauto).
  erewrite add_cached_eq; [| now apply list_lookup_insert_eq | reflexivity].
  simpl. now rewrite list_insert_insert_eq.
Qed.

(** Construction from a native list of ints: the cached size is the
    number of elements, which is what a full traversal computes. *)
Lemma init_from_int_list d (h : heap) it ys :
  (1 <= d)%nat -> h !! it = Some (PyList ys) -> Forall (is_int h) ys ->
  safe_list.init d (Some it) h
  = Ok (length h) (h ++ [SafeList ys (Some (Z.of_nat (length ys)))]) /\
  in_sync d (length h) (h ++ [SafeList ys (Some (Z.of_nat (length ys)))]).
Proof.
  intros Hd Hit Hys.
  assert (Hint : forall o, Forall (is_int (h ++ [o])) ys).
  { intros o. eapply Forall_impl; [exact Hys|]. intros x [z Hx].
    exists z. now apply lookup_app_l_Some. }
  split.
  - unfold safe_list.init. unfold bind at 1. unfold alloc.
    rewrite (bind_ok _ _ _ _ _
               (py_iter_list _ _ _ (lookup_app_l_Some _ [SafeList [] None] _ _ Hit))).
    rewrite (bind_ok _ _ _ _ _
               (set_data_eq _ _ _ _ ys (lookup_new h (SafeList [] None)))).
    rewrite insert_new.
    assert (Hsz : size_of d (length h) (h ++ [SafeList ys None])
                  = Ok (Z.of_nat (length ys))
                      (h ++ [SafeList ys (Some (Z.of_nat (length ys)))])).
    { unfold size_of. unfold bind at 1. rewrite approx_len_of_eq.
      unfold text_len, approx_attr, cached_size, children, length_hint.
      rewrite lookup_new. cbn [as_text option_map approx_len_attr].
      destruct (visit_ints d _ ys Hd (Hint (SafeList ys None))
                  (Z.of_nat (length ys)) (default [Ref (length h)] None))
        as [vis' Hv].
      unfold bind at 1. rewrite Hv. unfold bind, memoize.
      now rewrite lookup_new, insert_new. }
    rewrite (bind_ok _ _ _ _ _ Hsz).
    rewrite (bind_ok _ _ _ _ _
               (set_cached_eq _ _ _ (Z.of_nat (length ys))
                  (lookup_new h (SafeList ys (Some (Z.of_nat (length ys))))) eq_refl)).
    simpl. now rewrite insert_new.
  - exists (Z.of_nat (length ys)). split.
    + unfold cached_size. now rewrite lookup_new.
    + eapply traversal_ints; [exact Hd | apply lookup_new | apply Hint].
Qed.

Lemma int_call_insert h self xs c o' call :
  h !! self = Some (SafeList xs c) ->
  int_call h call -> int_call (<[self := o']> h) call.
Proof.
  intros Hs. destruct call as [obj|it]; simpl.
  - apply (is_int_insert _ _ _ _ _ Hs). discriminate.
  - intros (ys & Hit & Hys). exists ys. split.
    + rewrite list_lookup_insert_ne; [assumption|]. intros ->. congruence.
    + eapply Forall_impl; [exact Hys|]. intros x.
      apply (is_int_insert _ _ _ _ _ Hs). discriminate.
Qed.

Lemma for_each_cons {A} (f : A -> M unit) x l h :
  for_each f (x :: l) h =
  match f x h with
  | Ok _ h1 => for_each f l h1
  | Raise e h1 => Raise e h1
  end.
Proof. reflexivity. Qed.

Lemma int_sequence_calls cfg d self calls :
  (1 <= d)%nat ->
  forall h xs,
    h !! self = Some (SafeList xs (Some (Z.of_nat (length xs)))) ->
    Forall (is_int h) xs -> Forall (int_call h) calls ->
    exists h' xs',
      h' !! self = Some (SafeList xs' (Some (Z.of_nat (length xs')))) /\
      Forall (is_int h') xs' /\
      (for_each (run_seq_call cfg d self) calls h = Ok tt h' \/
       for_each (run_seq_call cfg d self) calls h = Raise IterableTooLong h').
Proof.
  intros Hd. induction calls as [|call calls IH]; intros h xs Hs Hxs Hcalls.
  - exists h, xs. simpl. auto.
  - apply Forall_cons in Hcalls as [Hcall Hcalls]. rewrite for_each_cons.
    assert (Hstep : exists ys,
               Forall (is_int h) ys /\
               run_seq_call cfg d self call h =
               if Z.of_nat (length xs) + Z.of_nat (length ys) >? max_const_len cfg
               then Raise IterableTooLong h
               else Ok tt (<[self := SafeList (xs ++ ys)
                                     (Some (Z.of_nat (length xs) + Z.of_nat (length ys)))]> h)).
    { destruct call as [obj|it]; simpl in *.
      - exists [obj]. split; [now constructor|]. now apply append_eq.
      - destruct Hcall as (ys & Hit & Hys). exists ys. split; [assumption|].
        apply extend_eq; auto using size_of_int_list, py_iter_list. }
    destruct Hstep as (ys & Hys & ->).
    destruct (_ >? _).
    + exists h, xs. auto.
    + destruct (IH (<[self := SafeList (xs ++ ys)
                            (Some (Z.of_nat (length xs) + Z.of_nat (length ys)))]> h)
                  (xs ++ ys)) as (h' & xs' & Hs' & Hxs' & Hrun).
      * rewrite length_app, Nat2Z.inj_add.
        apply list_lookup_insert_eq. eapply lookup_lt_Some; eauto.
      * apply Forall_app. split;
          (eapply Forall_impl; [eassumption|]); intros x;
          apply (is_int_insert _ _ _ _ _ Hs); discriminate.
      * eapply Forall_impl; [exact Hcalls|]. intros c'.
        now apply (int_call_insert _ _ _ _ _ _ Hs).
      * exists h', xs'. auto.
Qed.



(** Discarding an element that is not in a bounded set still takes 1 off
    the cached size: it becomes negative, and the estimator reports it. *)
Lemma discard_absent_breaks_sync :
  exists h',
    safe_set.discard 1 0 h_empty_set = Ok tt h' /\
    h' !! 1%nat = Some (SafeSet [] (Some (-1))) /\
    size_of recursion_limit 1 h' = Ok (-1) h' /\
    traversal_size recursion_limit 1 h' = Val 0.
Proof. eexists. repeat split; vm_compute; reflexivity. Qed.

(** ** The properties at concrete stores *)

(** A union of a bounded set of cached size 3 with a list estimated at 3
    is rejected under ceiling 5. *)
Lemma rejected_union_witness :
  cached_size h_set_and_list 3 = Some 3 /\
  run_call (ceiling 5) recursion_limit 3 (SetUnion [4%nat]) h_set_and_list
  = Raise IterableTooLong h_set_and_list /\
  (h_set_and_list !! 3%nat = h_set_and_list !! 3%nat /\
   cached_size h_set_and_list 3 = Some 3 /\
   (in_place (SetUnion [4%nat]) = false ->
    length h_set_and_list = length h_set_and_list)).
Proof.
  split; [reflexivity|]. split; [vm_compute; reflexivity|].
  apply (rejected_call_leaves_container_unchanged
           (ceiling 5) recursion_limit 3 (SetUnion [4%nat])
           h_set_and_list h_set_and_list 3).
  - reflexivity.
  - vm_compute; reflexivity.
Defined.






(** Overwriting the value of key ["k"] with the text ["abc"]: the cached
    size goes from 4 to 7 and the mapping still has one entry. *)
Lemma setitem_overwrite_witness :
  h_one_entry !! 3%nat = Some (SafeDict [(0, 1)%nat] (Some 4)) /\
  approx_len_of recursion_limit (Ref 2%nat) None h_one_entry
  = Ok (3, []) h_one_entry /\
  safe_dict.setitem (ceiling 10) recursion_limit 3 0 2 h_one_entry
  = Ok tt [PyStr "k"; PyInt 7; PyStr "abc"; SafeDict [(0, 2)%nat] (Some 7)] /\
  safe_dict.setitem (ceiling 5) recursion_limit 3 0 2 h_one_entry
  = Raise IterableTooLong h_one_entry.
Proof.
  assert (Hs : h_one_entry !! 3%nat = Some (SafeDict [(0, 1)%nat] (Some 4)))
    by reflexivity.
  assert (He : approx_len_of recursion_limit (Ref 2%nat) None h_one_entry
               = Ok (3, []) h_one_entry) by reflexivity.
  split; [assumption|]. split; [assumption|]. split.
  - destruct (setitem_delta_is_new_value (ceiling 10) recursion_limit
                h_one_entry h_one_entry 3 0 2 [(0, 1)%nat] 4 3 [] Hs He)
      as (_ & _ & Hok).
    destruct (Hok ltac:(simpl; lia) (PyStr "k") eq_refl eq_refl) as (-> & _).
    reflexivity.
  - destruct (setitem_delta_is_new_value (ceiling 5) recursion_limit
                h_one_entry h_one_entry 3 0 2 [(0, 1)%nat] 4 3 [] Hs He)
      as (_ & Hrej & _).
    apply Hrej. simpl; lia.
Defined.

(** * Further properties *)

(** ** What the estimator does to the store *)

Lemma memo_only_refl h : memo_only h h.
Proof. split; [reflexivity|]. intros a o Ha. now left. Qed.

Lemma with_cached_idem o n m : with_cached (with_cached o n) m = with_cached o m.
Proof. now destruct o. Qed.

Lemma memoizable_with_cached o n : memoizable (with_cached o n) = false.
Proof. now destruct o as [| | | | |? []|? []|? []|]. Qed.

Lemma memo_only_trans h1 h2 h3 :
  memo_only h1 h2 -> memo_only h2 h3 -> memo_only h1 h3.
Proof.
  intros [L12 H12] [L23 H23]. split; [congruence|]. intros a o Ha.
  destruct (H12 a o Ha) as [H2|(Hm & n & H2)].
  - apply (H23 a o H2).
  - destruct (H23 a _ H2) as [H3|(Hm3 & _)].
    + right. eauto.
    + now rewrite memoizable_with_cached in Hm3.
Qed.

Lemma memoizable_uncached o : memoizable o = true -> approx_len_attr o = None.
Proof. now destruct o as [| | | | |? []|? []|? []|]. Qed.

Lemma memoize_memo_only h h1 v n :
  approx_attr h v = None -> memo_only h h1 ->
  memo_only h (final_heap (memoize v n h1)).
Proof.
  intros Hnone [Hl H1]. unfold memoize.
  destruct v as [a|k w]; [|now split].
  destruct (h1 !! a) as [o1|] eqn:Ho1; [|now split].
  assert (Hset : memoizable (without_cached o1) = true ->
                 memo_only h (<[a := with_cached o1 n]> h1)).
  { intros Hm. split; [now rewrite length_insert|]. intros x o Hx.
    destruct (Nat.eq_dec a x) as [<-|Hne].
    - rewrite list_lookup_insert_eq by (eapply lookup_lt_Some; eauto).
      simpl in Hnone. unfold cached_size in Hnone. rewrite Hx in Hnone.
      right. destruct (H1 a o Hx) as [H|(_ & m & H)];
        rewrite H in Ho1; inversion Ho1; subst o1.
      + split; [|eauto]. destruct o as [| | | | |? []|? []|? []|];
          simpl in *; congruence.
      + rewrite with_cached_idem. split; [|eauto].
        destruct o as [| | | | |? []|? []|? []|]; simpl in *; congruence.
    - rewrite list_lookup_insert_ne by assumption. apply (H1 x o Hx). }
  destruct o1; try (now split); apply Hset; reflexivity.
Qed.

Lemma estimate_tail_memo rec contains cs size vis obj h :
  approx_attr h obj = None ->
  keeps memo_only (visit_children rec contains cs size vis) ->
  memo_only h (final_heap
    ((let* '(size', visited') := visit_children rec contains cs size vis in
      let* _ := memoize obj size' in ret (size', visited')) h)).
Proof.
  intros Hattr Hv. specialize (Hv h). unfold bind at 1.
  destruct (visit_children rec contains cs size vis h) as [[n vis'] h1|e h1];
    simpl in *; [|assumption].
  rewrite memoize_ret_heap. now apply memoize_memo_only.
Qed.

Lemma approx_len_of_memo_only d :
  forall obj visited, keeps memo_only (approx_len_of d obj visited).
Proof.
  pose proof memo_only_refl as Hr. pose proof memo_only_trans as Ht.
  induction d as [|d IH]; intros obj visited h; simpl;
    (destruct (text_len h obj); [apply Hr|]);
    (destruct (approx_attr h obj) eqn:Hattr; [apply Hr|]);
    (destruct (children h obj) as [cs|];
     [|rewrite memoize_ret_heap; now apply memoize_memo_only]);
    apply estimate_tail_memo; trivial;
    apply keeps_visit_children; auto using keeps_lift, keeps_raise.
Qed.

(** X1. Whatever its outcome, a size estimate allocates nothing and leaves
    every object of the store as it was, except that bounded lists and
    sets that had no cached size may have received one: contents never
    change, an existing cached size is never overwritten, and a bounded
    mapping is never given one. *)
Theorem estimator_only_memoizes
  (d : nat) (obj : value) (visited : option (list value)) (h : heap) :
  let h' := final_heap (approx_len_of d obj visited h) in
  length h' = length h /\
  map without_cached h' = map without_cached h /\
  (forall a o, h !! a = Some o -> memoizable o = false -> h' !! a = Some o).
Proof.
  intros h'. destruct (approx_len_of_memo_only d obj visited h) as [Hl Hm].
  fold h' in Hl, Hm. split; [exact Hl|]. split.
  - apply list_eq. intros a. rewrite !list_lookup_fmap.
    destruct (h !! a) as [o|] eqn:Ha.
    + destruct (Hm a o Ha) as [->|(_ & n & ->)]; simpl; [reflexivity|].
      now destruct o.
    + assert (h' !! a = None) as ->; [|reflexivity].
      apply lookup_ge_None. rewrite Hl. now apply lookup_ge_None.
  - intros a o Ha Hno. destruct (Hm a o Ha) as [H|(Hyes & _)]; [exact H|congruence].
Qed.

(** X2. The only exception the estimator lets out is [RecursionError]:
    the [TypeError] of a value that is not iterable and the
    [AttributeError] of a value that takes no attribute are both
    handled, and nothing else in the traversal raises. *)
Theorem estimator_raises_only_recursion_error
  (d : nat) (obj : value) (visited : option (list value)) (h h' : heap) (e : exn) :
  approx_len_of d obj visited h = Raise e h' -> e = RecursionError.
Proof. apply approx_len_of_raises. Qed.

Lemma estimator_raises_witness :
  approx_len_of 7 (Ref 0%nat) None h_mutual = Raise RecursionError h_mutual /\
  RecursionError = RecursionError.
Proof.
  assert (H : approx_len_of 7 (Ref 0%nat) None h_mutual
              = Raise RecursionError h_mutual) by (vm_compute; reflexivity).
  split; [exact H|].
  exact (estimator_raises_only_recursion_error 7 (Ref 0%nat) None
           h_mutual h_mutual RecursionError H).
Defined.

(** X3. A successful estimate of a bounded list or set that has no cached
    size attaches the result to it, so that any later estimate of the same
    object returns the same number at once, without traversal and at any
    recursion budget. *)
Theorem estimate_is_memoized
  (d : nat) (a : addr) (visited : option (list value)) (h h' : heap)
  (o : obj) (n : Z) (vis' : list value) :
  h !! a = Some o -> memoizable o = true ->
  approx_len_of d (Ref a) visited h = Ok (n, vis') h' ->
  h' !! a = Some (with_cached o n) /\
  forall d2 v2, approx_len_of d2 (Ref a) v2 h' = Ok (n, default [] v2) h'.
Proof.
  intros Ha Hm Hrun.
  assert (Hat : h' !! a = Some (with_cached o n)).
  { rewrite approx_len_of_eq in Hrun.
    assert (Htext : text_len h (Ref a) = None).
    { simpl. rewrite Ha. now destruct o. }
    assert (Hattr : approx_attr h (Ref a) = None).
    { simpl. unfold cached_size. rewrite Ha. now apply memoizable_uncached. }
    rewrite Htext, Hattr in Hrun.
    destruct (children h (Ref a)) as [cs|] eqn:Hcs.
    2:{ simpl in Hcs. rewrite Ha in Hcs.
        destruct o as [| | | | |? []|? []|? []|]; discriminate. }
    apply bind_inv_ok in Hrun as ([size' vis1] & h1 & Hloop & Hrun).
    assert (Hk : keeps memo_only
                   (visit_children (nested_call d) (contains d) cs
                      (length_hint h (Ref a)) (default [Ref a] visited))).
    { apply keeps_visit_children;
        [exact memo_only_refl | exact memo_only_trans | |].
      - intros c vis. destruct d; simpl;
          [apply keeps_raise, memo_only_refl | apply approx_len_of_memo_only].
      - intros vis c. apply keeps_lift, memo_only_refl. }
    specialize (Hk h). rewrite Hloop in Hk. destruct Hk as [Hl Hk]. simpl in Hl, Hk.
    assert (Hlt : (a < length h1)%nat).
    { rewrite Hl. eapply lookup_lt_Some; eauto. }
    unfold bind, memoize, ret in Hrun.
    destruct (Hk a o Ha) as [H1|(_ & m & H1)]; rewrite H1 in Hrun;
      destruct o as [| | | | |? []|? []|? []|]; try discriminate;
      simpl in Hrun; inversion Hrun; subst;
      now rewrite list_lookup_insert_eq. }
  split; [exact Hat|]. intros d2 v2. apply approx_len_of_cached.
  unfold cached_size. rewrite Hat.
  now destruct o as [| | | | |? []|? []|? []|].
Qed.

Lemma estimate_is_memoized_witness :
  [PyInt 1; SafeList [0; 0]%nat None] !! 1%nat = Some (SafeList [0; 0]%nat None) /\
  memoizable (SafeList [0; 0]%nat None) = true /\
  approx_len_of 3 (Ref 1%nat) None [PyInt 1; SafeList [0; 0]%nat None]
  = Ok (2, [Ref 1; Ref 0]%nat) [PyInt 1; SafeList [0; 0]%nat (Some 2)] /\
  [PyInt 1; SafeList [0; 0]%nat (Some 2)] !! 1%nat
  = Some (with_cached (SafeList [0; 0]%nat None) 2) /\
  forall d2 v2,
    approx_len_of d2 (Ref 1%nat) v2 [PyInt 1; SafeList [0; 0]%nat (Some 2)]
    = Ok (2, default [] v2) [PyInt 1; SafeList [0; 0]%nat (Some 2)].
Proof.
  assert (H : approx_len_of 3 (Ref 1%nat) None [PyInt 1; SafeList [0; 0]%nat None]
              = Ok (2, [Ref 1; Ref 0]%nat) [PyInt 1; SafeList [0; 0]%nat (Some 2)])
    by (vm_compute; reflexivity).
  split; [reflexivity|]. split; [reflexivity|]. split; [exact H|].
  exact (estimate_is_memoized 3 1 None [PyInt 1; SafeList [0; 0]%nat None]
           [PyInt 1; SafeList [0; 0]%nat (Some 2)] (SafeList [0; 0]%nat None)
           2 [Ref 1; Ref 0]%nat eq_refl eq_refl H).
Defined.

(** ** The sign of an estimate *)

Lemma nonneg_memoize h v n :
  0 <= n -> nonneg_caches h -> nonneg_caches (final_heap (memoize v n h)).
Proof.
  intros Hn Hh. unfold memoize. destruct v as [a|k w]; [|exact Hh].
  assert (Hins : forall o o', h !! a = Some o -> approx_len_attr o' = Some n ->
                 nonneg_caches (<[a := o']> h)).
  { intros o o' Ha Ho' x c. unfold cached_size.
    destruct (Nat.eq_dec a x) as [<-|Hne].
    - rewrite list_lookup_insert_eq by (eapply lookup_lt_Some; eauto).
      rewrite Ho'. now intros [= <-].
    - rewrite list_lookup_insert_ne by assumption. apply (Hh x c). }
  destruct (h !! a) as [o|] eqn:Ha; [|exact Hh].
  destruct o; try exact Hh; simpl; eapply Hins; eauto.
Qed.

Lemma nonneg_visit rec contains cs :
  (forall c vis h, nonneg_caches h ->
     match rec c vis h with
     | Ok (n, _) h' => 0 <= n /\ nonneg_caches h'
     | Raise _ h' => nonneg_caches h'
     end) ->
  (forall vis c h, final_heap (contains vis c h) = h) ->
  forall size vis h, nonneg_caches h ->
    match visit_children rec contains cs size vis h with
    | Ok (n, _) h' => size <= n /\ nonneg_caches h'
    | Raise _ h' => nonneg_caches h'
    end.
Proof.
  intros Hrec Hcon. induction cs as [|child rest IH]; intros size vis h Hh; simpl.
  - split; [lia | exact Hh].
  - unfold bind at 1. specialize (Hcon vis child h).
    destruct (contains vis child h) as [[|] h1|e h1]; simpl in Hcon; subst h1.
    + now apply IH.
    + unfold bind at 1. specialize (Hrec child vis h Hh).
      destruct (rec child vis h) as [[n vis1] h1|e h1]; [|exact Hrec].
      destruct Hrec as [Hn Hh1]. specialize (IH (size + n) (vis1 ++ [child]) h1 Hh1).
      destruct (visit_children rec contains rest (size + n) (vis1 ++ [child]) h1)
        as [[m vis2] h2|e h2]; [|exact IH].
      destruct IH. split; [lia | assumption].
    + exact Hh.
Qed.

Lemma length_hint_nonneg h v : 0 <= length_hint h v.
Proof.
  unfold length_hint. destruct v as [a|k w]; [|lia].
  destruct (h !! a) as [[]|]; lia.
Qed.

Lemma text_len_nonneg h v n : text_len h v = Some n -> 0 <= n.
Proof.
  unfold text_len. destruct v as [a|k w]; [|discriminate].
  destruct (h !! a) as [o|]; [|discriminate].
  destruct (as_text o); simpl; [|discriminate]. intros [= <-]. unfold py_len. lia.
Qed.

Lemma nonneg_finish h obj (n : Z) (vis' : list value) h1 :
  length_hint h obj <= n -> 0 <= length_hint h obj -> nonneg_caches h1 ->
  match (let* _ := memoize obj n in ret (n, vis')) h1
        return Prop with
  | Ok (m, _) h' =>
      0 <= m /\ nonneg_caches h' /\
      (text_len h obj = None -> approx_attr h obj = None ->
       length_hint h obj <= m)
  | Raise _ h' => nonneg_caches h'
  end.
Proof.
  intros Hle Hlen Hh1. pose proof (nonneg_memoize h1 obj n ltac:(lia) Hh1) as Hm.
  unfold bind, ret.
  destruct (memoize obj n h1) as [[] hm|e hm]; simpl in Hm; auto.
  split; [lia|]. split; [exact Hm|]. auto.
Qed.

Lemma approx_len_of_nonneg d :
  forall obj visited h, nonneg_caches h ->
    match approx_len_of d obj visited h with
    | Ok (n, _) h' =>
        0 <= n /\ nonneg_caches h' /\
        (text_len h obj = None -> approx_attr h obj = None ->
         length_hint h obj <= n)
    | Raise _ h' => nonneg_caches h'
    end.
Proof.
  induction d as [|d IH]; intros obj visited h Hh; rewrite approx_len_of_eq.
  all: destruct (text_len h obj) as [n|] eqn:Ht;
    [split; [eapply text_len_nonneg; eauto | split; [exact Hh | discriminate]]|].
  all: destruct (approx_attr h obj) as [n|] eqn:Hattr;
    [split; [destruct obj as [a|k w]; [apply (Hh a n Hattr) | discriminate]
            | split; [exact Hh | discriminate]]|].
  all: pose proof (length_hint_nonneg h obj) as Hlen.
  all: destruct (children h obj) as [cs|];
    [| pose proof (nonneg_finish h obj (length_hint h obj)
                     (default [obj] visited) h ltac:(lia) Hlen Hh) as Hf;
       rewrite Ht, Hattr in Hf; exact Hf].
  all: unfold bind at 1;
    match goal with |- context [visit_children ?r ?c ?l ?s ?v _] =>
      pose proof (nonneg_visit r c l) as Hv
    end.
  - specialize (Hv ltac:(intros c vis h0 H0; exact H0)
                   ltac:(intros vis c h0; unfold contains, lift;
                         now destruct (py_contains 0 h0 vis c))
                   (length_hint h obj) (default [obj] visited) h Hh).
    destruct (visit_children _ _ _ _ _ h) as [[n vis'] h1|e h1]; [|exact Hv].
    destruct Hv as [Hn Hh1].
    pose proof (nonneg_finish h obj n vis' h1 Hn Hlen Hh1) as Hf.
    rewrite Ht, Hattr in Hf. exact Hf.
  - specialize (Hv ltac:(intros c vis h0 H0;
                         pose proof (IH c (Some vis) h0 H0) as Hc; simpl;
                         destruct (approx_len_of d c (Some vis) h0) as [[m v0] h3|e h3];
                         [destruct Hc as (? & ? & _); auto | exact Hc])
                   ltac:(intros vis c h0; unfold contains, lift;
                         now destruct (py_contains (S d) h0 vis c))
                   (length_hint h obj) (default [obj] visited) h Hh).
    destruct (visit_children _ _ _ _ _ h) as [[n vis'] h1|e h1]; [|exact Hv].
    destruct Hv as [Hn Hh1].
    pose proof (nonneg_finish h obj n vis' h1 Hn Hlen Hh1) as Hf.
    rewrite Ht, Hattr in Hf. exact Hf.
Qed.

(** X4. In a store where no cached size is negative, a size estimate that
    returns is never negative, it is at least the length of the value when
    the value is traversed (neither text nor already cached), and the
    cached sizes it attaches are not negative either. *)
Theorem estimate_is_nonnegative
  (d : nat) (obj : value) (visited : option (list value)) (h h' : heap)
  (n : Z) (vis' : list value) :
  nonneg_caches h ->
  approx_len_of d obj visited h = Ok (n, vis') h' ->
  0 <= n /\ nonneg_caches h' /\
  (text_len h obj = None -> approx_attr h obj = None -> length_hint h obj <= n).
Proof.
  intros Hh Hrun. pose proof (approx_len_of_nonneg d obj visited h Hh) as H.
  now rewrite Hrun in H.
Qed.

Lemma estimate_is_nonnegative_witness :
  nonneg_caches h_twins /\
  approx_len_of 9 (Ref 0%nat) None h_twins
  = Ok (4, [Ref 0; Ref 3; Ref 4; Ref 1]%nat) h_twins /\
  0 <= 4 /\ nonneg_caches h_twins /\
  (text_len h_twins (Ref 0%nat) = None -> approx_attr h_twins (Ref 0%nat) = None ->
   length_hint h_twins (Ref 0%nat) <= 4).
Proof.
  assert (Hh : nonneg_caches h_twins).
  { intros a c. unfold cached_size, h_twins.
    destruct a as [|[|[|[|[|a]]]]]; simpl; discriminate. }
  assert (H : approx_len_of 9 (Ref 0%nat) None h_twins
              = Ok (4, [Ref 0; Ref 3; Ref 4; Ref 1]%nat) h_twins)
    by (vm_compute; reflexivity).
  split; [exact Hh|]. split; [exact H|].
  exact (estimate_is_nonnegative 9 (Ref 0%nat) None h_twins h_twins 4 _ Hh H).
Defined.

(** ** The wider monad *)

Lemma bindP_returns {A B} (m : P A) (k : A -> P B) h x h1 :
  m h = Returns x h1 -> bindP m k h = k x h1.
Proof. unfold bindP. now intros ->. Qed.

Lemma bindP_fails {A B} (m : P A) (k : A -> P B) h e h1 :
  m h = Fails e h1 -> bindP m k h = Fails e h1.
Proof. unfold bindP. now intros ->. Qed.

Lemma run_ok {A} (m : M A) h x h1 : m h = Ok x h1 -> run m h = Returns x h1.
Proof. unfold run. now intros ->. Qed.

Lemma run_raise {A} (m : M A) h e h1 :
  m h = Raise e h1 -> run m h = Fails (Builtin e) h1.
Proof. unfold run. now intros ->. Qed.

(** ** Shrinking a bounded sequence *)

Lemma pop_index_Some n i j :
  pop_index n i = Some j ->
  (j < n)%nat /\ (Z.of_nat j = i \/ Z.of_nat j = i + Z.of_nat n).
Proof.
  unfold pop_index. set (k := if i <? 0 then i + Z.of_nat n else i).
  assert (Hk : k = i \/ k = i + Z.of_nat n).
  { unfold k. destruct (i <? 0); auto. }
  destruct (Z.leb_spec 0 k), (Z.ltb_spec k (Z.of_nat n)); simpl; try discriminate.
  intros [= <-]. lia.
Qed.

Lemma pop_index_None n i :
  pop_index n i = None <-> (i < - Z.of_nat n \/ Z.of_nat n <= i).
Proof.
  unfold pop_index. set (k := if i <? 0 then i + Z.of_nat n else i).
  assert (Hk : (i < 0 /\ k = i + Z.of_nat n) \/ (0 <= i /\ k = i)).
  { unfold k. destruct (Z.ltb_spec i 0); auto. }
  destruct (Z.leb_spec 0 k), (Z.ltb_spec k (Z.of_nat n)); simpl;
    split; intros; try discriminate; try reflexivity; lia.
Qed.

Lemma list_pop_eq h self xs c i :
  h !! self = Some (SafeList xs c) ->
  list_pop self i h =
  match pop_index (length xs) i with
  | None => Fails IndexError h
  | Some j =>
      match xs !! j with
      | Some x => Returns x (<[self := SafeList (delete j xs) c]> h)
      | None => Fails IndexError h
      end
  end.
Proof.
  intros Hs. unfold list_pop.
  rewrite (bindP_returns _ _ _ _ _ (run_ok _ _ _ _ (get_data_eq _ _ _ _ Hs))).
  destruct (pop_index (length xs) i) as [j|]; [|reflexivity].
  destruct (xs !! j) as [x|]; [|reflexivity].
  now rewrite (bindP_returns _ _ _ _ _
                 (run_ok _ _ _ _ (set_data_eq _ _ _ _ (delete j xs) Hs))).
Qed.

(** [pop] on a constructed sequence. *)
Lemma pop_eq h self xs c i :
  h !! self = Some (SafeList xs (Some c)) ->
  safe_list.pop self i h =
  match pop_index (length xs) i with
  | None => Fails IndexError h
  | Some j =>
      match xs !! j with
      | Some x => Returns x (<[self := SafeList (delete j xs) (Some (c + -1))]> h)
      | None => Fails IndexError h
      end
  end.
Proof.
  intros Hs. unfold safe_list.pop.
  assert (Hl : (self < length h)%nat) by (eapply lookup_lt_Some; eauto).
  unfold bindP at 1. rewrite (list_pop_eq _ _ _ _ i Hs).
  destruct (pop_index (length xs) i) as [j|]; [|reflexivity].
  destruct (xs !! j) as [x|]; [|reflexivity].
  assert (Hin : <[self := SafeList (delete j xs) (Some c)]> h !! self
                = Some (SafeList (delete j xs) (Some c)))
    by now apply list_lookup_insert_eq.
  rewrite (bindP_returns _ _ _ _ _
             (run_ok _ _ _ _ (add_cached_eq _ _ _ _ (-1) Hin eq_refl))).
  unfold retP. simpl. now rewrite list_insert_insert_eq.
Qed.

Lemma remove_first_Some d h item xs :
  forall xs', remove_first d h xs item = Val (Some xs') ->
  exists l1 x l2,
    xs = l1 ++ x :: l2 /\ xs' = l1 ++ l2 /\
    Forall (fun z => py_eq d h (Ref z) (Ref item) = Val false) l1 /\
    py_eq d h (Ref x) (Ref item) = Val true.
Proof.
  induction xs as [|y xs IH]; intros xs'; simpl; [discriminate|].
  destruct (py_eq d h (Ref y) (Ref item)) as [[|]|e] eqn:E; try discriminate.
  - intros [= <-]. exists [], y, xs. auto.
  - destruct (remove_first d h xs item) as [[r|]|e]; try discriminate.
    intros [= <-]. destruct (IH r eq_refl) as (l1 & x & l2 & -> & -> & Hl1 & Hx).
    exists (y :: l1), x, l2. auto.
Qed.

Lemma remove_first_None d h item xs :
  remove_first d h xs item = Val None ->
  Forall (fun z => py_eq d h (Ref z) (Ref item) = Val false) xs.
Proof.
  induction xs as [|y xs IH]; simpl; [constructor|].
  destruct (py_eq d h (Ref y) (Ref item)) as [[|]|e] eqn:E; try discriminate.
  destruct (remove_first d h xs item) as [[r|]|e]; try discriminate.
  intros _. constructor; auto.
Qed.

Lemma remove_first_err d h item xs e :
  remove_first d h xs item = Err e -> e = RecursionError.
Proof.
  induction xs as [|y xs IH]; simpl; [discriminate|].
  destruct (py_eq d h (Ref y) (Ref item)) as [[|]|e'] eqn:E; try discriminate.
  - destruct (remove_first d h xs item) as [[r|]|e']; try discriminate.
    intros [= <-]. now apply IH.
  - intros [= <-]. eapply py_eq_err; eauto.
Qed.

(** [remove] on a constructed sequence. *)
Lemma remove_eq d h self xs c item :
  h !! self = Some (SafeList xs (Some c)) ->
  safe_list.remove d self item h =
  match remove_first d h xs item with
  | Val (Some xs') => Ok tt (<[self := SafeList xs' (Some (c + -1))]> h)
  | Val None => Raise ValueError h
  | Err e => Raise e h
  end.
Proof.
  intros Hs. unfold safe_list.remove, list_remove.
  assert (Hl : (self < length h)%nat) by (eapply lookup_lt_Some; eauto).
  unfold bind at 1. rewrite (bind_ok _ _ _ _ _ (get_data_eq _ _ _ _ Hs)).
  unfold bind at 1, lift.
  destruct (remove_first d h xs item) as [[xs'|]|e]; try reflexivity.
  rewrite (set_data_eq _ _ _ _ xs' Hs).
  erewrite add_cached_eq; [| now apply list_lookup_insert_eq | reflexivity].
  simpl. now rewrite list_insert_insert_eq.
Qed.

(** X5. Appending an object to a bounded sequence and popping the last
    element gives the object back and restores the store exactly,
    contents and cached size. *)
Theorem append_then_pop_restores
  (cfg : config) (d : nat) (h : heap) (self obj : addr) (xs : list addr) (c : Z) :
  h !! self = Some (SafeList xs (Some c)) ->
  c + 1 <= max_const_len cfg ->
  exists h1,
    safe_list.append cfg d self obj h = Ok tt h1 /\
    h1 !! self = Some (SafeList (xs ++ [obj]) (Some (c + 1))) /\
    safe_list.pop self (-1) h1 = Returns obj h.
Proof.
  intros Hs Hle. eexists. split; [|split].
  - rewrite (append_eq cfg d h self xs c obj Hs).
    destruct (Z.gtb_spec (c + 1) (max_const_len cfg)); [lia | reflexivity].
  - apply list_lookup_insert_eq. eapply lookup_lt_Some; eauto.
  - assert (Hl : (self < length h)%nat) by (eapply lookup_lt_Some; eauto).
    rewrite (pop_eq _ self (xs ++ [obj]) (c + 1) (-1))
      by now apply list_lookup_insert_eq.
    assert (Hi : pop_index (length (xs ++ [obj])) (-1) = Some (length xs)).
    { unfold pop_index. rewrite length_app. simpl.
      replace (-1 <? 0) with true by reflexivity.
      destruct (Z.leb_spec 0 (-1 + Z.of_nat (length xs + 1))); [|lia].
      destruct (Z.ltb_spec (-1 + Z.of_nat (length xs + 1))
                  (Z.of_nat (length xs + 1))); [|lia].
      simpl. f_equal. lia. }
    rewrite Hi.
    rewrite (list_lookup_middle xs [] obj (length xs) eq_refl).
    rewrite list_insert_insert_eq.
    replace (delete (length xs) (xs ++ [obj])) with xs.
    2:{ rewrite delete_middle. now rewrite app_nil_r. }
    replace (c + 1 + -1) with c by lia.
    now rewrite list_insert_id.
Qed.

Lemma append_then_pop_witness :
  h_three !! 3%nat = Some (SafeList [0; 1; 2]%nat (Some 3)) /\
  3 + 1 <= max_const_len (ceiling 5) /\
  exists h1,
    safe_list.append (ceiling 5) recursion_limit 3 1 h_three = Ok tt h1 /\
    h1 !! 3%nat = Some (SafeList ([0; 1; 2]%nat ++ [1%nat]) (Some (3 + 1))) /\
    safe_list.pop 3 (-1) h1 = Returns 1%nat h_three.
Proof.
  split; [reflexivity|]. split; [simpl; lia|].
  apply (append_then_pop_restores (ceiling 5) recursion_limit h_three 3 1
           [0; 1; 2]%nat 3); [reflexivity | simpl; lia].
Defined.



(** X7. [remove] takes out the first element that is identical or equal
    ([==]) to the item and lowers the cached size by one; when no element
    is, it raises [ValueError], and when a comparison exhausts the
    recursion limit, [RecursionError]; in both cases the store is left as
    it was. *)
Theorem remove_first_equal
  (d : nat) (h : heap) (self item : addr) (xs : list addr) (c : Z) :
  h !! self = Some (SafeList xs (Some c)) ->
  match safe_list.remove d self item h with
  | Ok _ h' =>
      exists l1 x l2,
        xs = l1 ++ x :: l2 /\
        Forall (fun z => py_eq d h (Ref z) (Ref item) = Val false) l1 /\
        py_eq d h (Ref x) (Ref item) = Val true /\
        h' = <[self := SafeList (l1 ++ l2) (Some (c - 1))]> h
  | Raise e h' =>
      h' = h /\
      ((e = ValueError /\
        Forall (fun z => py_eq d h (Ref z) (Ref item) = Val false) xs) \/
       e = RecursionError)
  end.
Proof.
  intros Hs. rewrite (remove_eq d h self xs c item Hs).
  destruct (remove_first d h xs item) as [[xs'|]|e] eqn:E.
  - destruct (remove_first_Some _ _ _ _ _ E) as (l1 & x & l2 & -> & -> & Hl1 & Hx).
    exists l1, x, l2. replace (c + -1) with (c - 1) by lia. auto.
  - split; [reflexivity|]. left. split; [reflexivity|].
    now apply remove_first_None.
  - split; [reflexivity|]. right. eapply remove_first_err; eauto.
Qed.

Lemma remove_first_equal_witness :
  h_int_calls !! 4%nat = Some (SafeList [2%nat] (Some 1)) /\
  safe_list.remove recursion_limit 4 0 h_int_calls = Raise ValueError h_int_calls.
Proof.
  assert (Hs : h_int_calls !! 4%nat = Some (SafeList [2%nat] (Some 1)))
    by reflexivity.
  split; [exact Hs|].
  pose proof (remove_first_equal recursion_limit h_int_calls 4 0 [2%nat] 1 Hs) as H.
  destruct (safe_list.remove recursion_limit 4 0 h_int_calls) as [[] h'|e h'] eqn:E.
  - vm_compute in E. discriminate.
  - destruct H as [-> _]. vm_compute in E. inversion E; subst. reflexivity.
Defined.

Lemma slack_eq h self xs c :
  h !! self = Some (SafeList xs (Some c)) ->
  slack h self = Some (c - Z.of_nat (length xs)).
Proof. unfold slack. now intros ->. Qed.

Lemma slack_inv h self s :
  slack h self = Some s ->
  exists xs c, h !! self = Some (SafeList xs (Some c)) /\
               s = c - Z.of_nat (length xs).
Proof.
  unfold slack. destruct (h !! self) as [[| | | | |xs [c|]| | |]|]; try discriminate.
  intros [= <-]. eauto.
Qed.

(** X8. The calls that move a single element in or out of a bounded
    sequence (append, pop, remove) keep the distance between the cached
    size and the number of elements, whether they succeed or fail: each
    slot gained or lost is counted as exactly one. *)
Theorem slot_calls_keep_slack
  (cfg : config) (d : nat) (self : addr) (call : slot_call) (h : heap) (s : Z) :
  slack h self = Some s ->
  slack (result_heap (run_slot_call cfg d self call h)) self = Some s.
Proof.
  intros Hsl. destruct (slack_inv _ _ _ Hsl) as (xs & c & Hs & ->).
  assert (Hl : (self < length h)%nat) by (eapply lookup_lt_Some; eauto).
  assert (Hins : forall xs' c', c' - Z.of_nat (length xs') = c - Z.of_nat (length xs) ->
                 slack (<[self := SafeList xs' (Some c')]> h) self
                 = Some (c - Z.of_nat (length xs))).
  { intros xs' c' Heq. erewrite slack_eq by (now apply list_lookup_insert_eq).
    now rewrite Heq. }
  destruct call as [obj|i|item]; simpl; unfold bindP, run.
  - rewrite (append_eq cfg d h self xs c obj Hs).
    destruct (c + 1 >? max_const_len cfg); simpl; [assumption|].
    apply Hins. rewrite length_app. simpl. lia.
  - rewrite (pop_eq h self xs c i Hs).
    destruct (pop_index (length xs) i) as [j|]; simpl; [|assumption].
    destruct (xs !! j) as [x|] eqn:Hx; simpl; [|assumption].
    apply Hins. rewrite length_delete by eauto.
    pose proof (lookup_lt_Some _ _ _ Hx). lia.
  - rewrite (remove_eq d h self xs c item Hs).
    destruct (remove_first d h xs item) as [[xs'|]|e] eqn:E; simpl;
      try assumption.
    destruct (remove_first_Some _ _ _ _ _ E) as (l1 & x & l2 & -> & -> & _).
    apply Hins. rewrite !length_app. simpl. lia.
Qed.

Lemma slot_calls_keep_slack_witness :
  slack h_three 3 = Some 0 /\
  slack (result_heap (run_slot_call (ceiling 5) recursion_limit 3 (SlotPop 0)
                        h_three)) 3 = Some 0.
Proof.
  split; [reflexivity|].
  apply (slot_calls_keep_slack (ceiling 5) recursion_limit 3 (SlotPop 0) h_three 0).
  reflexivity.
Defined.

(** ** Emptying a container *)

Lemma set_items_eq h a xs c : h !! a = Some (SafeSet xs c) -> set_items a h = Ok xs h.
Proof.
  intros Ha. unfold set_items. now rewrite (bind_ok _ _ _ _ _ (load_eq _ _ _ Ha)).
Qed.

Lemma set_set_items_eq h a xs c ys :
  h !! a = Some (SafeSet xs c) ->
  set_set_items a ys h = Ok tt (<[a := SafeSet ys c]> h).
Proof.
  intros Ha. unfold set_set_items.
  now rewrite (bind_ok _ _ _ _ _ (load_eq _ _ _ Ha)).
Qed.

Lemma empty_traversal d (h : heap) a o :
  h !! a = Some o -> (o = SafeList [] None \/ o = SafeSet [] None) ->
  result_of (size_of d a h) = Val 0.
Proof.
  intros Ha Ho. unfold size_of. unfold bind at 1. rewrite approx_len_of_eq.
  unfold text_len, approx_attr, cached_size, children, length_hint.
  rewrite Ha. destruct Ho as [-> | ->]; simpl;
    unfold bind, ret, memoize; rewrite Ha; reflexivity.
Qed.

(** X9. [clear] empties a bounded sequence or set and sets its cached
    size to 0, whatever the cached size was before; the cached size then
    agrees with a full traversal of the contents, at any recursion
    budget. *)
Theorem clear_resynchronises
  (d : nat) (h : heap) (self : addr) (xs : list addr) (c : option Z) :
  (h !! self = Some (SafeList xs c) ->
   safe_list.clear self h = Ok tt (<[self := SafeList [] (Some 0)]> h) /\
   in_sync d self (<[self := SafeList [] (Some 0)]> h)) /\
  (h !! self = Some (SafeSet xs c) ->
   safe_set.clear self h = Ok tt (<[self := SafeSet [] (Some 0)]> h) /\
   in_sync d self (<[self := SafeSet [] (Some 0)]> h)).
Proof.
  split; intros Hs;
    (assert (Hl : (self < length h)%nat) by (eapply lookup_lt_Some; eauto)).
  - split.
    + unfold safe_list.clear.
      rewrite (bind_ok _ _ _ _ _ (set_data_eq _ _ _ _ [] Hs)).
      erewrite set_cached_eq;
        [| now apply list_lookup_insert_eq | reflexivity].
      simpl. now rewrite list_insert_insert_eq.
    + exists 0. split.
      * unfold cached_size. now rewrite list_lookup_insert_eq.
      * unfold traversal_size, forget_cached.
        rewrite list_lookup_insert_eq by assumption. simpl.
        rewrite list_insert_insert_eq.
        eapply empty_traversal; [now apply list_lookup_insert_eq | now left].
  - split.
    + unfold safe_set.clear.
      rewrite (bind_ok _ _ _ _ _ (set_set_items_eq _ _ _ _ [] Hs)).
      erewrite set_cached_eq;
        [| now apply list_lookup_insert_eq | reflexivity].
      simpl. now rewrite list_insert_insert_eq.
    + exists 0. split.
      * unfold cached_size. now rewrite list_lookup_insert_eq.
      * unfold traversal_size, forget_cached.
        rewrite list_lookup_insert_eq by assumption. simpl.
        rewrite list_insert_insert_eq.
        eapply empty_traversal; [now apply list_lookup_insert_eq | now right].
Qed.

Lemma clear_resynchronises_witness :
  h_three !! 3%nat = Some (SafeList [0; 1; 2]%nat (Some 3)) /\
  safe_list.clear 3 h_three
  = Ok tt [PyInt 1; PyInt 2; PyInt 3; SafeList [] (Some 0)] /\
  in_sync 0 3 [PyInt 1; PyInt 2; PyInt 3; SafeList [] (Some 0)].
Proof.
  split; [reflexivity|].
  apply (proj1 (clear_resynchronises 0 h_three 3 [0; 1; 2]%nat (Some 3))).
  reflexivity.
Defined.

(** ** Growing a sequence by itself *)

Lemma py_iter_safelist h a xs c :
  h !! a = Some (SafeList xs c) -> py_iter a h = Ok xs h.
Proof.
  intros Ha. unfold py_iter. now rewrite (bind_ok _ _ _ _ _ (load_eq _ _ _ Ha)).
Qed.

Lemma extend_self_eq cfg d h self xs c :
  h !! self = Some (SafeList xs (Some c)) ->
  safe_list.extend cfg d self self h =
  if c + c >? max_const_len cfg then Raise IterableTooLong h
  else Ok tt (<[self := SafeList (xs ++ xs) (Some (c + c))]> h).
Proof.
  intros Hs. apply (extend_eq cfg d h self xs c self c xs Hs).
  - apply size_of_cached. now apply (cached_of_lookup _ _ _ _ Hs).
  - eapply py_iter_safelist; eauto.
Qed.

Lemma iter_double_shift k (xs : list addr) :
  Nat.iter k (fun l => l ++ l) (xs ++ xs) = Nat.iter (S k) (fun l => l ++ l) xs.
Proof. induction k as [|k IH]; simpl; [reflexivity|]. simpl in IH. now rewrite IH. Qed.

(** X10. Extending a bounded sequence by itself doubles its contents and
    its cached size; [k] self-extensions in a row of a sequence with
    cached size [c >= 0] all go through exactly when [c * 2^k] is within
    the ceiling, and otherwise one of them is rejected with the
    size-limit exception. *)
Theorem repeated_self_extension
  (cfg : config) (d : nat) (self : addr) (k : nat) (h : heap)
  (xs : list addr) (c : Z) :
  0 <= c ->
  h !! self = Some (SafeList xs (Some c)) ->
  let calls := replicate k self in
  (c * 2 ^ Z.of_nat k <= max_const_len cfg ->
   for_each (safe_list.extend cfg d self) calls h
   = Ok tt (<[self := SafeList (Nat.iter k (fun l => l ++ l) xs)
                        (Some (c * 2 ^ Z.of_nat k))]> h)) /\
  (c * 2 ^ Z.of_nat k > max_const_len cfg -> (1 <= k)%nat ->
   exists h', for_each (safe_list.extend cfg d self) calls h
              = Raise IterableTooLong h').
Proof.
  intros Hc Hs calls. unfold calls. clear calls.
  revert h xs c Hc Hs. induction k as [|k IH]; intros h xs c Hc Hs.
  - split; [|lia]. intros _. simpl. unfold ret.
    change (Z.of_nat 0) with 0. rewrite Z.pow_0_r, Z.mul_1_r.
    now rewrite list_insert_id.
  - assert (Hl : (self < length h)%nat) by (eapply lookup_lt_Some; eauto).
    assert (Hpow : c * 2 ^ Z.of_nat (S k) = (c + c) * 2 ^ Z.of_nat k).
    { rewrite Nat2Z.inj_succ, Z.pow_succ_r by lia. ring. }
    assert (Hmono : c + c <= (c + c) * 2 ^ Z.of_nat k).
    { assert (1 <= 2 ^ Z.of_nat k) by (apply Z.pow_le_mono_r with (b := 0); lia).
      nia. }
    simpl replicate. rewrite for_each_cons, (extend_self_eq cfg d h self xs c Hs).
    destruct (IH (<[self := SafeList (xs ++ xs) (Some (c + c))]> h) (xs ++ xs) (c + c)
                ltac:(lia) ltac:(now apply list_lookup_insert_eq)) as [IHok IHrej].
    rewrite Hpow. split.
    + intros Hle. destruct (Z.gtb_spec (c + c) (max_const_len cfg)); [lia|].
      now rewrite (IHok Hle), list_insert_insert_eq, iter_double_shift.
    + intros Hgt _. destruct (Z.gtb_spec (c + c) (max_const_len cfg)); [eauto|].
      destruct k as [|k]; [simpl in Hgt; lia|]. apply IHrej; [assumption | lia].
Qed.

Lemma repeated_self_extension_witness :
  0 <= 3 /\
  h_three !! 3%nat = Some (SafeList [0; 1; 2]%nat (Some 3)) /\
  3 * 2 ^ Z.of_nat 2 <= max_const_len (ceiling 12) /\
  for_each (safe_list.extend (ceiling 12) recursion_limit 3) (replicate 2 3%nat)
    h_three
  = Ok tt [PyInt 1; PyInt 2; PyInt 3;
           SafeList [0; 1; 2; 0; 1; 2; 0; 1; 2; 0; 1; 2]%nat (Some 12)].
Proof.
  split; [lia|]. split; [reflexivity|]. split; [simpl; lia|].
  destruct (repeated_self_extension (ceiling 12) recursion_limit 3 2 h_three
              [0; 1; 2]%nat 3 ltac:(lia) eq_refl) as [Hok _].
  rewrite (Hok ltac:(simpl; lia)). reflexivity.
Defined.

(** ** Replication and the element count *)



(** ** Construction *)

Lemma raises_list_init d it : raises_within accepted_exn (safe_list.init d it).
Proof.
  unfold safe_list.init. apply raises_bind; [apply raises_alloc|]. intros self.
  apply raises_bind.
  { destruct it; [apply raises_py_iter | apply raises_ret]. }
  intros xs. apply raises_bind; [apply raises_set_data|]. intros _.
  apply raises_bind; [apply raises_size_of|]. intros n.
  apply raises_bind; [apply raises_set_cached|]. intros. apply raises_ret.
Qed.

Lemma raises_make_kwargs kvs : raises_within accepted_exn (make_kwargs kvs).
Proof.
  unfold make_kwargs. apply raises_bind; [apply raises_alloc_all|].
  intros. apply raises_alloc.
Qed.

Lemma raises_dict_init d arg kw : raises_within accepted_exn (safe_dict.init d arg kw).
Proof.
  unfold safe_dict.init. apply raises_bind; [apply raises_alloc|]. intros self.
  apply raises_bind.
  { destruct arg; [apply raises_dict_update | apply raises_ret]. }
  intros _. apply raises_bind; [apply raises_make_kwargs|]. intros k.
  apply raises_bind; [apply raises_dict_update|]. intros _.
  apply raises_bind; [apply raises_size_of|]. intros n.
  apply raises_bind; [apply raises_set_cached|]. intros. apply raises_ret.
Qed.

(** X12. The constructors of the bounded sequence, set and mapping never
    raise the size-limit exception, whatever they are built from: a
    sequence built from a native list of [n] ints has cached size [n]
    under any ceiling, and from then on an append is accepted exactly
    when [n + 1] is within the ceiling. *)
Theorem constructors_are_unchecked
  (cfg : config) (d : nat) (h : heap) (it obj : addr) (ys : list addr) :
  (forall arg kw h0 h', safe_list.init d arg h0 <> Raise IterableTooLong h' /\
                        safe_set.init d arg h0 <> Raise IterableTooLong h' /\
                        safe_dict.init d arg kw h0 <> Raise IterableTooLong h') /\
  ((1 <= d)%nat -> h !! it = Some (PyList ys) -> Forall (is_int h) ys ->
   let n := Z.of_nat (length ys) in
   let h1 := h ++ [SafeList ys (Some n)] in
   safe_list.init d (Some it) h = Ok (length h) h1 /\
   safe_list.append cfg d (length h) obj h1 =
   if n + 1 >? max_const_len cfg then Raise IterableTooLong h1
   else Ok tt (h ++ [SafeList (ys ++ [obj]) (Some (n + 1))])).
Proof.
  split.
  - intros arg kw h0 h'. repeat split; intros H.
    + now apply (raises_list_init d arg h0 _ h' H).
    + now apply (raises_set_init d arg h0 _ h' H).
    + now apply (raises_dict_init d arg kw h0 _ h' H).
  - intros Hd Hit Hys n h1. split.
    + apply (init_from_int_list d h it ys Hd Hit Hys).
    + apply append_fresh.
Qed.

Lemma constructors_are_unchecked_witness :
  (1 <= recursion_limit)%nat /\
  h_set_and_list !! 4%nat = Some (PyList [0; 1; 2]%nat) /\
  Forall (is_int h_set_and_list) [0; 1; 2]%nat /\
  safe_list.init recursion_limit (Some 4%nat) h_set_and_list
  = Ok 5%nat (h_set_and_list ++ [SafeList [0; 1; 2]%nat (Some 3)]) /\
  safe_list.append (ceiling 2) recursion_limit 5 0
    (h_set_and_list ++ [SafeList [0; 1; 2]%nat (Some 3)])
  = Raise IterableTooLong (h_set_and_list ++ [SafeList [0; 1; 2]%nat (Some 3)]).
Proof.
  assert (Hd : (1 <= recursion_limit)%nat) by (unfold recursion_limit; lia).
  assert (Hit : h_set_and_list !! 4%nat = Some (PyList [0; 1; 2]%nat)) by reflexivity.
  assert (Hys : Forall (is_int h_set_and_list) [0; 1; 2]%nat).
  { repeat constructor; [now exists 1 | now exists 2 | now exists 3]. }
  split; [exact Hd|]. split; [exact Hit|]. split; [exact Hys|].
  destruct (constructors_are_unchecked (ceiling 2) recursion_limit h_set_and_list
              4 0 [0; 1; 2]%nat) as [_ Hc].
  destruct (Hc Hd Hit Hys) as [Hinit Happ]. split; [exact Hinit|].
  exact Happ.
Defined.

(** ** Keys do not depend on the containers of the store *)

Lemma key_eq_unhashable_l h a b o :
  h !! a = Some o -> hashable o = false -> key_eq h a b = Nat.eqb a b.
Proof.
  intros Ha Ho. unfold key_eq. rewrite Ha.
  destruct o; try discriminate; destruct (h !! b) as [[]|];
    simpl; now rewrite orb_false_r.
Qed.

Lemma key_eq_unhashable_r h a b o :
  h !! b = Some o -> hashable o = false -> key_eq h a b = Nat.eqb a b.
Proof.
  intros Hb Ho. unfold key_eq. rewrite Hb.
  destruct o; try discriminate; destruct (h !! a) as [[]|];
    simpl; now rewrite orb_false_r.
Qed.

Lemma key_eq_insert h self o o' a b :
  h !! self = Some o -> hashable o = false -> hashable o' = false ->
  key_eq (<[self := o']> h) a b = key_eq h a b.
Proof.
  intros Hs Ho Ho'.
  assert (Hl : (self < length h)%nat) by (eapply lookup_lt_Some; eauto).
  destruct (Nat.eq_dec a self) as [->|Ha].
  { rewrite (key_eq_unhashable_l _ self b o') by (auto using list_lookup_insert_eq).
    now rewrite (key_eq_unhashable_l _ self b o). }
  destruct (Nat.eq_dec b self) as [->|Hb].
  { rewrite (key_eq_unhashable_r _ a self o') by (auto using list_lookup_insert_eq).
    now rewrite (key_eq_unhashable_r _ a self o). }
  unfold key_eq. now rewrite !list_lookup_insert_ne by auto.
Qed.

Lemma key_eq_refl h a : key_eq h a a = true.
Proof. unfold key_eq. now rewrite Nat.eqb_refl. Qed.

(** ** Members of a bounded set *)

Lemma filter_Is_true {A} (f : A -> bool) (l : list A) :
  filter (fun x => Is_true (f x)) l = List.filter f l.
Proof.
  induction l as [|x l IH]; [reflexivity|]. simpl.
  rewrite <- IH. unfold filter at 1; simpl.
  destruct (f x); simpl; reflexivity.
Qed.

Lemma filter_absent {A} (f : A -> bool) (l : list A) :
  existsb f l = false -> List.filter (fun x => negb (f x)) l = l.
Proof.
  induction l as [|x l IH]; [reflexivity|]. simpl.
  destruct (f x); simpl; [discriminate|]. intros H. now rewrite IH.
Qed.

Lemma hashable_not_set o : hashable o = true -> as_set o = None.
Proof. now destruct o. Qed.

(** [add], [discard] and [remove] on a constructed set, for an element
    with a hash. *)
Lemma set_add_eq h self xs c e o :
  h !! self = Some (SafeSet xs c) -> h !! e = Some o -> hashable o = true ->
  set_add self e h =
  Ok tt (if existsb (fun x => key_eq h x e) xs then h
         else <[self := SafeSet (xs ++ [e]) c]> h).
Proof.
  intros Hs He Ho. unfold set_add.
  rewrite (bind_ok _ _ _ _ _ (check_hashable_eq _ _ _ He Ho)).
  rewrite (bind_ok _ _ _ _ _ (set_items_eq _ _ _ _ Hs)).
  destruct (existsb _ xs); [reflexivity|].
  now apply set_set_items_eq with (xs := xs).
Qed.

Lemma safe_set_add_eq cfg d h self xs c e o :
  h !! self = Some (SafeSet xs (Some c)) -> h !! e = Some o -> hashable o = true ->
  safe_set.add cfg d self e h =
  if c + 1 >? max_const_len cfg then Raise IterableTooLong h
  else Ok tt (<[self := SafeSet (if existsb (fun x => key_eq h x e) xs
                                 then xs else xs ++ [e]) (Some (c + 1))]> h).
Proof.
  intros Hs He Ho. unfold safe_set.add.
  assert (Hl : (self < length h)%nat) by (eapply lookup_lt_Some; eauto).
  rewrite (bind_ok _ _ _ _ _
             (size_of_cached d h self c (cached_of_lookup _ _ _ _ Hs eq_refl))).
  destruct (c + 1 >? max_const_len cfg); [reflexivity|].
  rewrite (bind_ok _ _ _ _ _ (set_add_eq _ _ _ _ _ _ Hs He Ho)).
  destruct (existsb _ xs).
  - now rewrite (add_cached_eq _ _ _ _ 1 Hs eq_refl).
  - erewrite add_cached_eq; [| now apply list_lookup_insert_eq | reflexivity].
    simpl. now rewrite list_insert_insert_eq.
Qed.

Lemma safe_set_discard_eq h self xs c e o :
  h !! self = Some (SafeSet xs (Some c)) -> h !! e = Some o -> hashable o = true ->
  safe_set.discard self e h =
  Ok tt (<[self := SafeSet (List.filter (fun x => negb (key_eq h x e)) xs)
                     (Some (c + -1))]> h).
Proof.
  intros Hs He Ho. unfold safe_set.discard, set_discard.
  assert (Hl : (self < length h)%nat) by (eapply lookup_lt_Some; eauto).
  unfold bind at 1. unfold bind at 1. rewrite (load_eq _ _ _ He).
  rewrite (hashable_not_set _ Ho).
  rewrite (bind_ok _ _ _ _ _ (check_hashable_eq _ _ _ He Ho)).
  rewrite (bind_ok _ _ _ _ _ (set_items_eq _ _ _ _ Hs)).
  rewrite (set_set_items_eq _ _ _ _ _ Hs).
  erewrite add_cached_eq; [| now apply list_lookup_insert_eq | reflexivity].
  simpl. rewrite list_insert_insert_eq. now rewrite filter_Is_true.
Qed.

Lemma safe_set_remove_eq h self xs c e o :
  h !! self = Some (SafeSet xs (Some c)) -> h !! e = Some o -> hashable o = true ->
  safe_set.remove self e h =
  if existsb (fun x => key_eq h x e) xs
  then Returns tt (<[self := SafeSet (List.filter (fun x => negb (key_eq h x e)) xs)
                              (Some (c + -1))]> h)
  else Fails KeyError h.
Proof.
  intros Hs He Ho. unfold safe_set.remove, set_remove.
  assert (Hl : (self < length h)%nat) by (eapply lookup_lt_Some; eauto).
  unfold bindP at 1. unfold bindP at 1. rewrite (run_ok _ _ _ _ (load_eq _ _ _ He)).
  rewrite (hashable_not_set _ Ho).
  rewrite (bindP_returns _ _ _ _ _ (run_ok _ _ _ _ (check_hashable_eq _ _ _ He Ho))).
  rewrite (bindP_returns _ _ _ _ _ (run_ok _ _ _ _ (set_items_eq _ _ _ _ Hs))).
  destruct (existsb _ xs); [|reflexivity].
  rewrite (run_ok _ _ _ _ (set_set_items_eq _ _ _ _
                             (List.filter (fun x => negb (key_eq h x e)) xs) Hs)).
  assert (Hin : <[self := SafeSet (List.filter (fun x => negb (key_eq h x e)) xs)
                           (Some c)]> h !! self
                = Some (SafeSet (List.filter (fun x => negb (key_eq h x e)) xs)
                          (Some c)))
    by now apply list_lookup_insert_eq.
  rewrite (run_ok _ _ _ _ (add_cached_eq _ _ _ _ (-1) Hin eq_refl)).
  simpl. now rewrite list_insert_insert_eq.
Qed.

(** X13. A bounded set counts calls, not members: adding an element that
    is already a member leaves the contents as they are and raises the
    cached size by one, and discarding an element that is not a member
    leaves the contents as they are and lowers the cached size by one;
    removing an element that is not a member fails with [KeyError] and
    changes nothing. *)
Theorem set_counts_calls
  (cfg : config) (d : nat) (h : heap) (self e : addr) (xs : list addr)
  (c : Z) (o : obj) :
  h !! self = Some (SafeSet xs (Some c)) ->
  h !! e = Some o -> hashable o = true ->
  (existsb (fun x => key_eq h x e) xs = true ->
   c + 1 <= max_const_len cfg ->
   safe_set.add cfg d self e h = Ok tt (<[self := SafeSet xs (Some (c + 1))]> h)) /\
  (existsb (fun x => key_eq h x e) xs = false ->
   safe_set.discard self e h = Ok tt (<[self := SafeSet xs (Some (c - 1))]> h) /\
   safe_set.remove self e h = Fails KeyError h).
Proof.
  intros Hs He Ho. split.
  - intros Hin Hle. rewrite (safe_set_add_eq cfg d h self xs c e o Hs He Ho), Hin.
    destruct (Z.gtb_spec (c + 1) (max_const_len cfg)); [lia | reflexivity].
  - intros Hout. split.
    + rewrite (safe_set_discard_eq h self xs c e o Hs He Ho).
      rewrite (filter_absent _ _ Hout). now replace (c + -1) with (c - 1) by lia.
    + now rewrite (safe_set_remove_eq h self xs c e o Hs He Ho), Hout.
Qed.

Lemma set_counts_calls_witness :
  h_empty_set !! 1%nat = Some (SafeSet [] (Some 0)) /\
  h_empty_set !! 0%nat = Some (PyInt 1) /\
  safe_set.discard 1 0 h_empty_set = Ok tt [PyInt 1; SafeSet [] (Some (0 - 1))] /\
  safe_set.remove 1 0 h_empty_set = Fails KeyError h_empty_set.
Proof.
  split; [reflexivity|]. split; [reflexivity|].
  destruct (set_counts_calls (ceiling 5) recursion_limit h_empty_set 1 0 [] 0
              (PyInt 1) eq_refl eq_refl eq_refl) as [_ Hout].
  exact (Hout eq_refl).
Defined.



(** ** Entries of a bounded mapping *)

Lemma replace_value_ext h h' es k v :
  (forall a b, key_eq h a b = key_eq h' a b) ->
  replace_value h es k v = replace_value h' es k v.
Proof.
  intros Hk. induction es as [|[k' v'] es IH]; simpl; [reflexivity|].
  now rewrite Hk, IH.
Qed.

Lemma remove_key_ext h h' es k :
  (forall a b, key_eq h a b = key_eq h' a b) ->
  remove_key h es k = remove_key h' es k.
Proof.
  intros Hk. induction es as [|[k' v'] es IH]; simpl; [reflexivity|].
  now rewrite Hk, IH.
Qed.

Lemma remove_key_None h es k :
  dict_lookup h es k = None -> remove_key h es k = None.
Proof.
  induction es as [|[k' v'] es IH]; simpl; [reflexivity|].
  destruct (key_eq h k' k); [discriminate|]. intros H. now rewrite IH.
Qed.

Lemma remove_key_Some h es k v :
  dict_lookup h es k = Some v ->
  exists es', remove_key h es k = Some (v, es') /\
              (length es' + 1 = length es)%nat.
Proof.
  induction es as [|[k' v'] es IH]; simpl; [discriminate|].
  destruct (key_eq h k' k).
  - intros [= <-]. exists es. split; [reflexivity | lia].
  - intros H. destruct (IH H) as (es' & -> & Hlen).
    exists ((k', v') :: es'). split; [reflexivity | simpl; lia].
Qed.

Lemma replace_value_absent h es k v :
  dict_lookup h es k = None -> replace_value h es k v = es ++ [(k, v)].
Proof.
  induction es as [|[k' v'] es IH]; simpl; [reflexivity|].
  destruct (key_eq h k' k); [discriminate|]. intros H. now rewrite IH.
Qed.

Lemma remove_key_last h es k v :
  dict_lookup h es k = None -> remove_key h (es ++ [(k, v)]) k = Some (v, es).
Proof.
  induction es as [|[k' v'] es IH]; simpl.
  - now rewrite key_eq_refl.
  - destruct (key_eq h k' k); [discriminate|]. intros H. now rewrite IH.
Qed.

Lemma set_dict_entries_eq h a es c es' :
  h !! a = Some (SafeDict es c) ->
  set_dict_entries a es' h = Ok tt (<[a := SafeDict es' c]> h).
Proof.
  intros Ha. unfold set_dict_entries.
  now rewrite (bind_ok _ _ _ _ _ (load_eq _ _ _ Ha)).
Qed.

Lemma dict_pop_eq h self es c k o :
  h !! self = Some (SafeDict es c) -> h !! k = Some o -> hashable o = true ->
  dict_pop self k h =
  match remove_key h es k with
  | None => Fails KeyError h
  | Some (v, es') => Returns v (<[self := SafeDict es' c]> h)
  end.
Proof.
  intros Hs Hk Ho. unfold dict_pop.
  rewrite (bindP_returns _ _ _ _ _ (run_ok _ _ _ _ (check_hashable_eq _ _ _ Hk Ho))).
  rewrite (bindP_returns _ _ _ _ _
             (run_ok _ _ _ _ (dict_entries_eq _ _ _ es Hs eq_refl))).
  destruct (remove_key h es k) as [[v es']|]; [|reflexivity].
  now rewrite (bindP_returns _ _ _ _ _
                 (run_ok _ _ _ _ (set_dict_entries_eq _ _ _ _ es' Hs))).
Qed.

Lemma safe_dict_pop_eq h self es c k o :
  h !! self = Some (SafeDict es (Some c)) -> h !! k = Some o -> hashable o = true ->
  safe_dict.pop self k h =
  match remove_key h es k with
  | None => Fails KeyError h
  | Some (v, es') => Returns v (<[self := SafeDict es' (Some (c + -1))]> h)
  end /\
  safe_dict.delitem self k h =
  match remove_key h es k with
  | None => Fails KeyError h
  | Some (v, es') => Returns tt (<[self := SafeDict es' (Some (c + -1))]> h)
  end.
Proof.
  intros Hs Hk Ho. unfold safe_dict.pop, safe_dict.delitem.
  assert (Hl : (self < length h)%nat) by (eapply lookup_lt_Some; eauto).
  unfold bindP at 1. unfold bindP at 2.
  rewrite (dict_pop_eq h self es (Some c) k o Hs Hk Ho).
  destruct (remove_key h es k) as [[v es']|]; [|split; reflexivity].
  assert (Hin : <[self := SafeDict es' (Some c)]> h !! self
                = Some (SafeDict es' (Some c)))
    by now apply list_lookup_insert_eq.
  rewrite (bindP_returns _ _ _ _ _
             (run_ok _ _ _ _ (add_cached_eq _ _ _ _ (-1) Hin eq_refl))).
  rewrite (run_ok _ _ _ _ (add_cached_eq _ _ _ _ (-1) Hin eq_refl)).
  simpl. rewrite list_insert_insert_eq. split; reflexivity.
Qed.

(** X15. [pop] and [del] on a bounded mapping: for a missing key both
    fail with [KeyError] and leave the store, cached size included, as it
    was; for a present key [pop] returns the value that a lookup gives,
    one entry goes, and the cached size goes down by exactly one,
    whatever the size of the entry. *)
Theorem mapping_pop_and_delete
  (h : heap) (self k : addr) (es : list (addr * addr)) (c : Z) (o : obj) :
  h !! self = Some (SafeDict es (Some c)) ->
  h !! k = Some o -> hashable o = true ->
  (dict_lookup h es k = None ->
   safe_dict.pop self k h = Fails KeyError h /\
   safe_dict.delitem self k h = Fails KeyError h) /\
  (forall v, dict_lookup h es k = Some v ->
   exists es',
     (length es' + 1 = length es)%nat /\
     safe_dict.pop self k h
     = Returns v (<[self := SafeDict es' (Some (c - 1))]> h) /\
     safe_dict.delitem self k h
     = Returns tt (<[self := SafeDict es' (Some (c - 1))]> h)).
Proof.
  intros Hs Hk Ho. destruct (safe_dict_pop_eq h self es c k o Hs Hk Ho) as [-> ->].
  split.
  - intros Hnone. now rewrite (remove_key_None _ _ _ Hnone).
  - intros v Hv. destruct (remove_key_Some _ _ _ _ Hv) as (es' & -> & Hlen).
    exists es'. replace (c + -1) with (c - 1) by lia. auto.
Qed.

Lemma mapping_pop_and_delete_witness :
  h_one_entry !! 3%nat = Some (SafeDict [(0, 1)%nat] (Some 4)) /\
  h_one_entry !! 2%nat = Some (PyStr "abc") /\
  safe_dict.pop 3 2 h_one_entry = Fails KeyError h_one_entry /\
  safe_dict.delitem 3 2 h_one_entry = Fails KeyError h_one_entry.
Proof.
  split; [reflexivity|]. split; [reflexivity|].
  destruct (mapping_pop_and_delete h_one_entry 3 2 [(0, 1)%nat] 4 (PyStr "abc")
              eq_refl eq_refl eq_refl) as [Hmiss _].
  exact (Hmiss eq_refl).
Defined.

(** Accepted single-key assignment on a constructed mapping. *)
Lemma setitem_accepted cfg d h h1 self key val es c n vis o :
  h !! self = Some (SafeDict es (Some c)) ->
  approx_len_of d (Ref val) None h = Ok (n, vis) h1 ->
  c + n <= max_const_len cfg ->
  h1 !! key = Some o -> hashable o = true ->
  h1 !! self = Some (SafeDict es (Some c)) /\
  safe_dict.setitem cfg d self key val h
  = Ok tt (<[self := SafeDict (replace_value h1 es key val) (Some (c + n))]> h1).
Proof.
  intros Hs Hest Hle Hk Hh.
  pose proof (approx_len_of_preserves d (Ref val) None h) as Hst.
  rewrite Hest in Hst. simpl in Hst.
  assert (Hs1 : h1 !! self = Some (SafeDict es (Some c))).
  { rewrite <- Hs. apply (Hst self c). now apply (cached_of_lookup _ _ _ _ Hs). }
  assert (Hlt : (self < length h1)%nat) by (eapply lookup_lt_Some; eauto).
  split; [exact Hs1|].
  unfold safe_dict.setitem, size_of.
  unfold bind at 1. unfold bind at 1. rewrite Hest. unfold ret at 1.
  unfold bind at 1. unfold bind at 1.
  rewrite (approx_len_of_cached d h1 self c None
             (cached_of_lookup _ _ _ _ Hs1 eq_refl)).
  unfold ret at 1. destruct (Z.gtb_spec (c + n) (max_const_len cfg)); [lia|].
  rewrite (bind_ok _ _ _ _ _ (add_cached_eq _ _ _ _ n Hs1 eq_refl)).
  simpl with_cached.
  assert (Hne : self <> key).
  { intros ->. rewrite Hs1 in Hk. inversion Hk; subst. discriminate. }
  rewrite (dict_setitem_eq _ self es (Some (c + n)) key val o);
    [| now apply list_lookup_insert_eq | now rewrite list_lookup_insert_ne | exact Hh].
  rewrite list_insert_insert_eq. do 3 f_equal.
  apply replace_value_ext. intros a b.
  now apply (key_eq_insert h1 self _ _ a b Hs1).
Qed.

(** X16. Assigning a value to a key that a bounded mapping does not hold
    and popping the key again returns the value and restores the entries,
    but not the cached size: the assignment adds the estimate [n] of the
    value and the pop takes off 1, leaving [c + n - 1]. *)
Theorem setitem_then_pop_drifts
  (cfg : config) (d : nat) (h h1 : heap) (self key val : addr)
  (es : list (addr * addr)) (c n : Z) (vis : list value) (o : obj) :
  h !! self = Some (SafeDict es (Some c)) ->
  approx_len_of d (Ref val) None h = Ok (n, vis) h1 ->
  c + n <= max_const_len cfg ->
  h1 !! key = Some o -> hashable o = true ->
  dict_lookup h1 es key = None ->
  exists h2,
    safe_dict.setitem cfg d self key val h = Ok tt h2 /\
    h2 !! self = Some (SafeDict (es ++ [(key, val)]) (Some (c + n))) /\
    safe_dict.pop self key h2
    = Returns val (<[self := SafeDict es (Some (c + n - 1))]> h1).
Proof.
  intros Hs Hest Hle Hk Hh Habs.
  destruct (setitem_accepted cfg d h h1 self key val es c n vis o
              Hs Hest Hle Hk Hh) as [Hs1 Hset].
  assert (Hlt : (self < length h1)%nat) by (eapply lookup_lt_Some; eauto).
  assert (Hne : self <> key).
  { intros ->. rewrite Hs1 in Hk. inversion Hk; subst. discriminate. }
  rewrite (replace_value_absent _ _ _ val Habs) in Hset.
  set (h2 := <[self := SafeDict (es ++ [(key, val)]) (Some (c + n))]> h1) in *.
  assert (Hs2 : h2 !! self = Some (SafeDict (es ++ [(key, val)]) (Some (c + n)))).
  { unfold h2. now apply list_lookup_insert_eq. }
  exists h2. split; [exact Hset|]. split; [exact Hs2|].
  destruct (safe_dict_pop_eq h2 self (es ++ [(key, val)]) (c + n) key o Hs2)
    as [-> _]; [unfold h2; now rewrite list_lookup_insert_ne | exact Hh |].
  rewrite (remove_key_ext h2 h1)
    by (intros a b; unfold h2; now apply (key_eq_insert h1 self _ _ a b Hs1)).
  rewrite (remove_key_last _ _ _ val Habs). unfold h2.
  rewrite list_insert_insert_eq. now replace (c + n + -1) with (c + n - 1) by lia.
Qed.

Lemma setitem_then_pop_witness :
  h_small_dict !! 2%nat = Some (SafeDict [] (Some 0)) /\
  approx_len_of recursion_limit (Ref 1%nat) None h_small_dict
  = Ok (0, [Ref 1%nat]) h_small_dict /\
  0 + 0 <= max_const_len (ceiling 1) /\
  h_small_dict !! 0%nat = Some (PyInt 1) /\
  exists h2,
    safe_dict.setitem (ceiling 1) recursion_limit 2 0 1 h_small_dict = Ok tt h2 /\
    h2 !! 2%nat = Some (SafeDict ([] ++ [(0, 1)%nat]) (Some (0 + 0))) /\
    safe_dict.pop 2 0 h2
    = Returns 1%nat (<[2%nat := SafeDict [] (Some (0 + 0 - 1))]> h_small_dict).
Proof.
  assert (He : approx_len_of recursion_limit (Ref 1%nat) None h_small_dict
               = Ok (0, [Ref 1%nat]) h_small_dict) by reflexivity.
  split; [reflexivity|]. split; [exact He|]. split; [simpl; lia|].
  split; [reflexivity|].
  apply (setitem_then_pop_drifts (ceiling 1) recursion_limit h_small_dict
           h_small_dict 2 0 1 [] 0 0 [Ref 1%nat] (PyInt 1));
    try reflexivity; try exact He.
  simpl; lia.
Defined.

(** ** Bounded text *)

Lemma py_len_append s t : py_len (s ++ t) = py_len s + py_len t.
Proof.
  unfold py_len. induction s as [|c s IH]; simpl String.length; [lia|].
  simpl (String.length (String c s)). lia.
Qed.

Lemma py_len_of_list l : py_len (string_of_list_ascii l) = Z.of_nat (length l).
Proof.
  unfold py_len. induction l as [|c l IH]; simpl; [reflexivity|]. lia.
Qed.

Lemma py_len_pad c n : py_len (pad c n) = Z.max 0 n.
Proof. unfold pad. rewrite py_len_of_list, repeat_length. lia. Qed.

Lemma land_one_bounds a : 0 <= Z.land a 1 <= 1.
Proof.
  change 1 with (Z.ones 1) at 1 2. rewrite Z.land_ones by lia.
  change (2 ^ 1) with 2. pose proof (Z.mod_pos_bound a 2). lia.
Qed.

Lemma native_ljust_len s w f : py_len (native_ljust s w f) = Z.max (py_len s) w.
Proof.
  unfold native_ljust. destruct (Z.leb_spec w (py_len s)); [lia|].
  rewrite py_len_append, py_len_pad. lia.
Qed.

Lemma native_rjust_len s w f : py_len (native_rjust s w f) = Z.max (py_len s) w.
Proof.
  unfold native_rjust. destruct (Z.leb_spec w (py_len s)); [lia|].
  rewrite py_len_append, py_len_pad. lia.
Qed.

Lemma native_center_len s w f : py_len (native_center s w f) = Z.max (py_len s) w.
Proof.
  unfold native_center. destruct (Z.leb_spec w (py_len s)); [lia|].
  rewrite !py_len_append, !py_len_pad.
  pose proof (land_one_bounds (Z.land (w - py_len s) w)) as Hb.
  set (m := w - py_len s) in *. set (b := Z.land (Z.land m w) 1) in *.
  assert (0 <= m / 2) by (apply Z.div_pos; lia).
  assert (m / 2 + b <= m).
  { destruct (Z.eq_dec m 1) as [Hm|Hm].
    - rewrite Hm. change (1 / 2) with 0. lia.
    - assert (2 * (m / 2) <= m) by (apply Z.mul_div_le; lia).
      assert (1 <= m / 2) by (apply Z.div_le_lower_bound; lia).
      lia. }
  lia.
Qed.

Lemma native_zfill_len s w : py_len (native_zfill s w) = Z.max (py_len s) w.
Proof.
  unfold native_zfill. destruct (Z.leb_spec w (py_len s)); [lia|].
  destruct s as [|c rest].
  - rewrite py_len_pad. unfold py_len in *. simpl in *. lia.
  - destruct (_ || _)%bool.
    + change (String c (pad "0" (w - py_len (String c rest)) ++ rest))
        with (String c "" ++ (pad "0" (w - py_len (String c rest)) ++ rest))%string.
      rewrite !py_len_append, py_len_pad.
      change (String c rest) with (String c "" ++ rest)%string in *.
      rewrite py_len_append in *. lia.
    + rewrite py_len_append, py_len_pad. lia.
Qed.



Lemma expand_length tabsize cs :
  forall j,
    Z.of_nat (length (expand tabsize j cs))
    <= Z.of_nat (length cs)
       + Z.of_nat (length (List.filter (Ascii.eqb tab) cs)) * (Z.max tabsize 1 - 1).
Proof.
  induction cs as [|c cs IH]; intros j; cbn [expand List.filter length]; [lia|].
  rewrite (Ascii.eqb_sym tab c). destruct (Ascii.eqb c tab) eqn:Ec;
    cbn [length].
  - destruct (Z.ltb_spec 0 tabsize).
    + rewrite length_app, repeat_length.
      pose proof (Z.mod_pos_bound j tabsize ltac:(lia)).
      specialize (IH (j + (tabsize - j mod tabsize))). lia.
    + specialize (IH j). lia.
  - match goal with |- context [expand tabsize ?k cs] => specialize (IH k) end.
    lia.
Qed.

Lemma expand_no_tabs tabsize cs :
  List.filter (Ascii.eqb tab) cs = [] -> forall j, expand tabsize j cs = cs.
Proof.
  induction cs as [|c cs IH]; intros Hf j; cbn [expand]; [reflexivity|].
  cbn [List.filter] in Hf. rewrite (Ascii.eqb_sym tab c) in Hf.
  destruct (Ascii.eqb c tab); [discriminate|]. now rewrite IH.
Qed.



(** ** Replacing in bounded text *)

Lemma py_len_list s : py_len s = Z.of_nat (length (list_ascii_of_string s)).
Proof. rewrite <- py_len_of_list. now rewrite string_of_list_ascii_of_string. Qed.

Lemma is_prefix_length p s : is_prefix p s = true -> (length p <= length s)%nat.
Proof.
  revert s. induction p as [|a p IH]; intros [|b s]; simpl; try lia; try discriminate.
  intros H. apply andb_true_iff in H as [_ H]. specialize (IH s H). lia.
Qed.

Lemma replace_from_exhausted old new s :
  replace_from old new 0 0 s = s.
Proof. induction s as [|c s IH]; simpl; [reflexivity|]. now rewrite IH. Qed.

(** With a budget that cannot run out, the length of the result is the
    length of the text plus the difference of lengths for each
    occurrence. *)
Lemma replace_from_length old new s :
  (1 <= length old)%nat ->
  forall budget skip, (length s < budget)%nat ->
    Z.of_nat (length (replace_from old new budget skip s))
    = Z.of_nat (length s) - Z.of_nat (Nat.min skip (length s))
      + Z.of_nat (count_from old skip s)
        * (Z.of_nat (length new) - Z.of_nat (length old)).
Proof.
  intros Hold. induction s as [|c s IH]; intros budget skip Hb.
  - simpl. destruct skip; simpl; lia.
  - cbn [replace_from count_from]. destruct skip as [|k].
    + destruct budget as [|b]; [simpl in Hb; lia|].
      destruct (is_prefix old (c :: s)) eqn:Hp.
      * apply is_prefix_length in Hp. simpl in Hp.
        pose proof (IH b (length old - 1)%nat ltac:(simpl in Hb; lia)) as IHb.
        rewrite Nat.min_l in IHb by lia.
        rewrite length_app. cbn [length Nat.min]. lia.
      * pose proof (IH (S b) 0%nat ltac:(simpl in Hb; lia)) as IHb.
        cbn [length Nat.min] in *. lia.
    + pose proof (IH budget k ltac:(simpl in Hb; lia)) as IHb.
      cbn [length Nat.min]. lia.
Qed.

(** With a replacement at least as long as what it replaces, each unit of
    budget adds at most the difference of lengths. *)
Lemma replace_from_bound old new s :
  (1 <= length old)%nat -> (length old <= length new)%nat ->
  forall budget skip,
    Z.of_nat (length (replace_from old new budget skip s))
    <= Z.of_nat (length s) - Z.of_nat (Nat.min skip (length s))
       + Z.of_nat budget * (Z.of_nat (length new) - Z.of_nat (length old)).
Proof.
  intros Hold Hnew. induction s as [|c s IH]; intros budget skip.
  - simpl. destruct skip; simpl; nia.
  - cbn [replace_from]. destruct skip as [|k].
    + destruct budget as [|b].
      * simpl length. specialize (IH 0%nat 0%nat). simpl Nat.min in *. lia.
      * destruct (is_prefix old (c :: s)) eqn:Hp.
        -- apply is_prefix_length in Hp. simpl in Hp.
           rewrite length_app. specialize (IH b (length old - 1)%nat).
           rewrite Nat.min_l in IH by lia. simpl length. simpl Nat.min. nia.
        -- simpl length. specialize (IH (S b) 0%nat). simpl Nat.min in *. lia.
    + specialize (IH budget k). simpl length. simpl Nat.min. lia.
Qed.

Lemma interleave_length new s :
  forall budget,
    Z.of_nat (length (interleave new budget s))
    = Z.of_nat (length s)
      + Z.of_nat (Nat.min budget (S (length s))) * Z.of_nat (length new).
Proof.
  induction s as [|c s IH]; intros [|b]; cbn [interleave]; try (simpl; lia).
  - rewrite length_app. destruct b; simpl; lia.
  - rewrite length_app. pose proof (IH b) as IHb.
    change (Nat.min (S b) (S (length (c :: s))))
      with (S (Nat.min b (S (length s)))).
    cbn [length]. lia.
Qed.

Lemma native_count_nonneg s o : 0 <= native_count s o.
Proof.
  unfold native_count. destruct (list_ascii_of_string o); unfold py_len; lia.
Qed.

(** The length of the native result, against the estimate of the
    check. *)
Lemma native_replace_length s o nw maxsplit :
  let delta := py_len nw - py_len o in
  (maxsplit < 0 ->
   py_len (native_replace s o nw maxsplit) = py_len s + native_count s o * delta) /\
  (0 <= delta ->
   py_len (native_replace s o nw maxsplit)
   <= py_len s + (if 0 <? maxsplit then maxsplit else native_count s o) * delta).
Proof.
  intros delta. unfold delta, native_replace, native_count.
  rewrite py_len_of_list, (py_len_list s), (py_len_list o), (py_len_list nw).
  set (cs := list_ascii_of_string s). set (new := list_ascii_of_string nw).
  destruct (list_ascii_of_string o) as [|a old] eqn:Ho.
  - (* an empty [old] *)
    rewrite interleave_length. simpl length. split.
    + intros Hneg. destruct (Z.ltb_spec maxsplit 0); [|lia].
      rewrite Nat.min_l by lia. lia.
    + intros Hd. destruct (Z.ltb_spec maxsplit 0).
      * destruct (Z.ltb_spec 0 maxsplit); [lia|].
        rewrite Nat.min_l by lia. lia.
      * destruct (Z.ltb_spec 0 maxsplit).
        -- assert (Z.of_nat (Nat.min (Z.to_nat maxsplit) (S (length cs)))
                   <= maxsplit) by lia.
           nia.
        -- replace (Z.to_nat maxsplit) with 0%nat by lia. simpl. lia.
  - set (ol := a :: old) in *.
    assert (Hol : (1 <= length ol)%nat) by (simpl; lia).
    split.
    + intros Hneg. destruct (Z.ltb_spec maxsplit 0); [|lia].
      rewrite (replace_from_length ol new cs Hol) by lia. simpl Nat.min. lia.
    + intros Hd. assert (Hnew : (length ol <= length new)%nat) by lia.
      destruct (Z.ltb_spec maxsplit 0).
      * destruct (Z.ltb_spec 0 maxsplit); [lia|].
        rewrite (replace_from_length ol new cs Hol) by lia. simpl Nat.min. lia.
      * destruct (Z.ltb_spec 0 maxsplit).
        -- pose proof (replace_from_bound ol new cs Hol Hnew (Z.to_nat maxsplit) 0)
             as Hb.
           simpl Nat.min in Hb. rewrite Z2Nat.id in Hb by lia. lia.
        -- replace (Z.to_nat maxsplit) with 0%nat by lia.
           rewrite replace_from_exhausted. nia.
Qed.

Lemma text_arg_eq h a o s :
  h !! a = Some o -> as_text o = Some s -> text_arg a h = Ok s h.
Proof.
  intros Ha Hs. unfold text_arg.
  rewrite (bind_ok _ _ _ _ _ (load_eq _ _ _ Ha)). now rewrite Hs.
Qed.

Lemma len_of_text h a o s :
  h !! a = Some o -> as_text o = Some s -> len_of a h = Ok (py_len s) h.
Proof.
  intros Ha Hs. unfold len_of.
  rewrite (bind_ok _ _ _ _ _ (load_eq _ _ _ Ha)).
  destruct o; try discriminate; simpl in *; inversion Hs; subst; reflexivity.
Qed.



(** ** Popping from a bounded set *)

Lemma set_pop_eq h self xs c :
  h !! self = Some (SafeSet xs c) ->
  set_pop self h =
  match xs with
  | [] => Fails KeyError h
  | x :: xs' => Returns x (<[self := SafeSet xs' c]> h)
  end.
Proof.
  intros Hs. unfold set_pop.
  rewrite (bindP_returns _ _ _ _ _ (run_ok _ _ _ _ (set_items_eq _ _ _ _ Hs))).
  destruct xs as [|x xs']; [reflexivity|].
  now rewrite (bindP_returns _ _ _ _ _
                 (run_ok _ _ _ _ (set_set_items_eq _ _ _ _ xs' Hs))).
Qed.

(** X20. [pop] on an empty bounded set fails with [KeyError] and leaves
    the store, cached size included, as it was; on a set that is not
    empty it returns one of the members, which is the one that goes, and
    lowers the cached size by one. *)
Theorem set_pop_takes_a_member
  (h : heap) (self : addr) (xs : list addr) (c : Z) :
  h !! self = Some (SafeSet xs (Some c)) ->
  (xs = [] -> safe_set.pop self h = Fails KeyError h) /\
  (xs <> [] ->
   exists x xs',
     In x xs /\ (length xs' + 1 = length xs)%nat /\
     (forall y, In y xs <-> y = x \/ In y xs') /\
     safe_set.pop self h
     = Returns x (<[self := SafeSet xs' (Some (c - 1))]> h)).
Proof.
  intros Hs. assert (Hl : (self < length h)%nat) by (eapply lookup_lt_Some; eauto).
  pose proof (set_pop_eq _ _ _ _ Hs) as Hpop.
  unfold safe_set.pop. split.
  - intros ->. now rewrite (bindP_fails _ _ _ _ _ Hpop).
  - intros Hne. destruct xs as [|x xs']; [congruence|]. exists x, xs'.
    split; [now left|]. split; [simpl; lia|]. split; [simpl; intuition congruence|].
    assert (Hin : <[self := SafeSet xs' (Some c)]> h !! self
                  = Some (SafeSet xs' (Some c)))
      by now apply list_lookup_insert_eq.
    rewrite (bindP_returns _ _ _ _ _ Hpop).
    rewrite (bindP_returns _ _ _ _ _
               (run_ok _ _ _ _ (add_cached_eq _ _ _ _ (-1) Hin eq_refl))).
    unfold retP. simpl. rewrite list_insert_insert_eq.
    now replace (c + -1) with (c - 1) by lia.
Qed.

Lemma set_pop_witness :
  h_empty_set !! 1%nat = Some (SafeSet [] (Some 0)) /\
  safe_set.pop 1 h_empty_set = Fails KeyError h_empty_set.
Proof.
  split; [reflexivity|].
  destruct (set_pop_takes_a_member h_empty_set 1 [] 0 eq_refl) as [Hempty _].
  exact (Hempty eq_refl).
Defined.
